(** * PostOp-RN: the pose overlay and the camera frame loop of [App.tsx]

    A shallow embedding of the React Native component [App] (src/App.tsx):

    - JavaScript numbers that carry coordinates and scores are IEEE-754
      binary64 values, so they are Rocq's primitive floats, with the
      operations JavaScript applies to them ([-], [/], [*], [>]);
    - [Date.now()] readings are integers, so time stamps are in [Z];
    - React state ([useState]) and the [rafId] reference ([useRef]) are
      fields of one record that every handler takes and returns;
    - the asynchronous function [loop] is cut at its single [await]: the
      part before it and the part after it are two state transformers, and
      the runtime (animation frames, promises, the tensor engine) is the
      explicit remainder of the state. *)

From Stdlib Require Import ZArith List String Bool Lia Floats.
Import ListNotations.

#[local] Set Warnings "-inexact-float".
#[local] Open Scope Z_scope.

(** ** Platform and module constants (App.tsx, lines 11-37) *)

(** [Platform.OS] of react-native. *)
Inductive PlatformOS : Type :=
| ios | android | windows | macos | web.

Definition PlatformOS_eqb (a b : PlatformOS) : bool :=
  match a, b with
  | ios, ios | android, android | windows, windows
  | macos, macos | web, web => true
  | _, _ => false
  end.

(** What the module reads from the device when it is loaded:
    [Platform.OS] and [Dimensions.get('window').width]. *)
Record Device : Type := mkDevice {
  OS : PlatformOS;
  windowWidth : float
}.

Definition IS_ANDROID (d : Device) : bool := PlatformOS_eqb (OS d) android.
Definition IS_IOS (d : Device) : bool := PlatformOS_eqb (OS d) ios.

(** [IS_IOS ? 9 / 16 : 3 / 4] *)
Definition aspect (d : Device) : float :=
  (if IS_IOS d then 9 / 16 else 3 / 4)%float.

Definition CAM_PREVIEW_WIDTH (d : Device) : float := windowWidth d.
Definition CAM_PREVIEW_HEIGHT (d : Device) : float :=
  (CAM_PREVIEW_WIDTH d / aspect d)%float.

Definition OUTPUT_TENSOR_WIDTH : float := 180%float.
Definition OUTPUT_TENSOR_HEIGHT (d : Device) : float :=
  (OUTPUT_TENSOR_WIDTH / aspect d)%float.

Definition MIN_KEYPOINT_SCORE : float := 0.3%float.
Definition AUTO_RENDER : bool := false.

(** ** Data (pose-detection, expo-camera, expo-screen-orientation) *)

(** [ScreenOrientation.Orientation] *)
Inductive Orientation : Type :=
| UNKNOWN | PORTRAIT_UP | PORTRAIT_DOWN | LANDSCAPE_LEFT | LANDSCAPE_RIGHT.

Inductive CameraType : Type := front | back.

(** [posedetection.Keypoint]: [score] and [name] are optional. *)
Module Keypoint.
Record t : Type := mk {
  x : float;
  y : float;
  score : option float;
  name : option string
}.
End Keypoint.

Module Pose.
Record t : Type := mk {
  keypoints : list Keypoint.t;
  score : option float
}.
End Pose.

(** The identity of a [posedetection.PoseDetector] and of a [tf.Tensor3D]. *)
Definition PoseDetector : Type := nat.
Definition Tensor : Type := nat.
Bind Scope nat_scope with PoseDetector Tensor.

(** The value [Math.floor(1000 / latency)] can take when [latency] is a
    difference of two [Date.now()] readings: an integer, or [Infinity]
    when the two readings are equal. *)
Inductive JsNumber : Type :=
| Int (n : Z)
| Infinity.

(** The component's React state (lines 40-45). [model], [poses] and
    [orientation] start [undefined]. *)
Record ReactState : Type := mkReactState {
  tfReady : bool;
  cameraType : CameraType;
  model : option PoseDetector;
  fps : JsNumber;
  poses : option (list Pose.t);
  orientation : option Orientation
}.

(** ** The overlay (lines 74-109) *)

Definition Orientation_eqb (a b : Orientation) : bool :=
  match a, b with
  | UNKNOWN, UNKNOWN | PORTRAIT_UP, PORTRAIT_UP
  | PORTRAIT_DOWN, PORTRAIT_DOWN | LANDSCAPE_LEFT, LANDSCAPE_LEFT
  | LANDSCAPE_RIGHT, LANDSCAPE_RIGHT => true
  | _, _ => false
  end.

(** [orientation === Orientation.PORTRAIT_UP ||
     orientation === Orientation.PORTRAIT_DOWN] *)
Definition isPortrait (s : ReactState) : bool :=
  match orientation s with
  | Some o => Orientation_eqb o PORTRAIT_UP || Orientation_eqb o PORTRAIT_DOWN
  | None => false
  end.

Definition getOutputTensorWidth (d : Device) (s : ReactState) : float :=
  if isPortrait s || IS_ANDROID d
  then OUTPUT_TENSOR_WIDTH else OUTPUT_TENSOR_HEIGHT d.

Definition getOutputTensorHeight (d : Device) (s : ReactState) : float :=
  if isPortrait s || IS_ANDROID d
  then OUTPUT_TENSOR_HEIGHT d else OUTPUT_TENSOR_WIDTH.

(** [<Circle key=... cx=... cy=... r='4' .../>]; the remaining attributes
    are the same constants for every circle. *)
Record Circle : Type := mkCircle {
  key : string;
  cx : float;
  cy : float
}.

(** What [renderPose] returns: [<Svg>{keypoints}</Svg>] or [<View></View>]. *)
Inductive Element : Type :=
| Svg (children : list Circle)
| View.

(** [k.score ?? 0] *)
Definition scoreOrZero (k : Keypoint.t) : float :=
  match Keypoint.score k with
  | Some v => v
  | None => 0%float
  end.

(** The filter callback: [(k.score ?? 0) > MIN_KEYPOINT_SCORE]. *)
Definition aboveThreshold (k : Keypoint.t) : bool :=
  (MIN_KEYPOINT_SCORE <? scoreOrZero k)%float.

(** [`skeletonkp_${k.name}`]: an absent name prints as [undefined]. *)
Definition circleKey (k : Keypoint.t) : string :=
  ("skeletonkp_" ++
   match Keypoint.name k with
   | Some n => n
   | None => "undefined"
   end)%string.

(** [IS_ANDROID || cameraType === CameraType.back] *)
Definition flipX (d : Device) (s : ReactState) : bool :=
  IS_ANDROID d ||
  match cameraType s with back => true | front => false end.

(** The horizontal mirror of line 98: [getOutputTensorWidth() - k.x]. *)
Definition mirror (outputWidth x : float) : float :=
  (outputWidth - x)%float.

(** [const x = flipX ? getOutputTensorWidth() - k.x : k.x] *)
Definition flippedX (d : Device) (s : ReactState) (k : Keypoint.t) : float :=
  if flipX d s
  then mirror (getOutputTensorWidth d s) (Keypoint.x k)
  else Keypoint.x k.

(** The map callback (lines 95-103). *)
Definition toCircle (d : Device) (s : ReactState) (k : Keypoint.t) : Circle :=
  let x := flippedX d s k in
  let y := Keypoint.y k in
  {| key := circleKey k;
     cx := (x / getOutputTensorWidth d s
            * (if isPortrait s then CAM_PREVIEW_WIDTH d
               else CAM_PREVIEW_HEIGHT d))%float;
     cy := (y / getOutputTensorHeight d s
            * (if isPortrait s then CAM_PREVIEW_HEIGHT d
               else CAM_PREVIEW_WIDTH d))%float |}.

(** [poses != null && poses.length > 0] selects [poses[0]]. *)
Definition renderPose (d : Device) (s : ReactState) : Element :=
  match poses s with
  | Some (p :: _) =>
      Svg (map (toCircle d s) (filter aboveThreshold (Pose.keypoints p)))
  | Some [] | None => View
  end.

(** ** The frame loop and its runtime (lines 46-72 and 119-163) *)

(** What the component does to the world outside its own state, in the
    order it does it. *)
Inductive Action : Type :=
| DetectorReady (m : PoseDetector)           (* createDetector resolved *)
| LoopEntered                                (* a call of [loop] begins *)
| TensorAcquired (t : Tensor)                (* images.next().value *)
| EstimateCalled (m : PoseDetector) (t : Tensor) (* model.estimatePoses *)
| TensorDisposed (t : Tensor)                (* tf.dispose([imageTensor]) *)
| FramePresented                             (* updatePreview(); gl.endFrameEXP() *)
| LoopThrew (msg : string)                   (* the call of [loop] rejects *)
| CleanupRan.                                (* the unmount cleanup *)

(** A call of [loop] suspended at [await model.estimatePoses(...)], with
    the locals it resumes with. *)
Record Awaiting : Type := mkAwaiting {
  detector : PoseDetector;
  imageTensor : Tensor;
  startTs : Z
}.

(** The component together with the runtime it lives in.

    - [rafId] is [rafId.current]: [None] is [null];
    - [frameRequests] are the callbacks registered by
      [requestAnimationFrame] and not yet run or cancelled; the callback is
      always [loop], a closure over the [model] of the render that created
      it, so a request is its id and that captured [model];
    - [awaiting] are the calls of [loop] suspended at their [await];
    - [live] are the tensors handed out by the camera stream and not yet
      disposed, [nextTensor] the identity of the next one;
    - [log] is the history of [Action]s, oldest first. *)
Record App : Type := mkApp {
  state : ReactState;
  rafId : option Z;
  mounted : bool;
  detectorSettled : bool;
  cameraStarted : bool;
  nextTensor : Tensor;
  live : list Tensor;
  nextFrame : Z;
  frameRequests : list (Z * option PoseDetector);
  awaiting : list Awaiting;
  log : list Action
}.

Definition with_state (f : ReactState -> ReactState) (a : App) : App :=
  mkApp (f (state a)) (rafId a) (mounted a) (detectorSettled a)
        (cameraStarted a) (nextTensor a) (live a) (nextFrame a)
        (frameRequests a) (awaiting a) (log a).

Definition with_rafId (r : option Z) (a : App) : App :=
  mkApp (state a) r (mounted a) (detectorSettled a)
        (cameraStarted a) (nextTensor a) (live a) (nextFrame a)
        (frameRequests a) (awaiting a) (log a).

Definition with_mounted (b : bool) (a : App) : App :=
  mkApp (state a) (rafId a) b (detectorSettled a)
        (cameraStarted a) (nextTensor a) (live a) (nextFrame a)
        (frameRequests a) (awaiting a) (log a).

Definition with_detectorSettled (b : bool) (a : App) : App :=
  mkApp (state a) (rafId a) (mounted a) b
        (cameraStarted a) (nextTensor a) (live a) (nextFrame a)
        (frameRequests a) (awaiting a) (log a).

Definition with_cameraStarted (b : bool) (a : App) : App :=
  mkApp (state a) (rafId a) (mounted a) (detectorSettled a)
        b (nextTensor a) (live a) (nextFrame a)
        (frameRequests a) (awaiting a) (log a).

Definition with_tensors (n : Tensor) (l : list Tensor) (a : App) : App :=
  mkApp (state a) (rafId a) (mounted a) (detectorSettled a)
        (cameraStarted a) n l (nextFrame a)
        (frameRequests a) (awaiting a) (log a).

Definition with_frames (n : Z) (l : list (Z * option PoseDetector))
    (a : App) : App :=
  mkApp (state a) (rafId a) (mounted a) (detectorSettled a)
        (cameraStarted a) (nextTensor a) (live a) n
        l (awaiting a) (log a).

Definition with_awaiting (l : list Awaiting) (a : App) : App :=
  mkApp (state a) (rafId a) (mounted a) (detectorSettled a)
        (cameraStarted a) (nextTensor a) (live a) (nextFrame a)
        (frameRequests a) l (log a).

Definition record (act : Action) (a : App) : App :=
  mkApp (state a) (rafId a) (mounted a) (detectorSettled a)
        (cameraStarted a) (nextTensor a) (live a) (nextFrame a)
        (frameRequests a) (awaiting a) (log a ++ [act]).

(** The React setters the handlers call. *)
Definition setTfReady (b : bool) : App -> App :=
  with_state (fun s => mkReactState b (cameraType s) (model s) (fps s)
                                    (poses s) (orientation s)).
Definition setModel (m : PoseDetector) : App -> App :=
  with_state (fun s => mkReactState (tfReady s) (cameraType s) (Some m) (fps s)
                                    (poses s) (orientation s)).
Definition setFps (v : JsNumber) : App -> App :=
  with_state (fun s => mkReactState (tfReady s) (cameraType s) (model s) v
                                    (poses s) (orientation s)).
Definition setPoses (ps : list Pose.t) : App -> App :=
  with_state (fun s => mkReactState (tfReady s) (cameraType s) (model s) (fps s)
                                    (Some ps) (orientation s)).
Definition setOrientation (o : Orientation) : App -> App :=
  with_state (fun s => mkReactState (tfReady s) (cameraType s) (model s) (fps s)
                                    (poses s) (Some o)).

(** [images.next().value]: the stream hands out a fresh tensor, or nothing. *)
Definition images_next (hasFrame : bool) (a : App) : option Tensor * App :=
  if hasFrame
  then let t := nextTensor a in
       (Some t, record (TensorAcquired t) (with_tensors (S t) (t :: live a) a))
  else (None, a).

(** [tf.dispose([t])] *)
Definition tf_dispose (t : Tensor) (a : App) : App :=
  record (TensorDisposed t)
         (with_tensors (nextTensor a) (remove Nat.eq_dec t (live a)) a).

(** [requestAnimationFrame(loop)]: registers the callback and returns its
    id; ids are handed out in increasing order from 1. *)
Definition requestAnimationFrame (callback : option PoseDetector) (a : App)
  : Z * App :=
  let id := nextFrame a in
  (id, with_frames (id + 1) (frameRequests a ++ [(id, callback)]) a).

(** [cancelAnimationFrame(id)] *)
Definition cancelAnimationFrame (id : Z) (a : App) : App :=
  with_frames (nextFrame a)
              (filter (fun r => negb (fst r =? id)) (frameRequests a)) a.

(** [Math.floor(1000 / latency)] for an integer [latency]. *)
Definition Math_floor_1000_over (latency : Z) : JsNumber :=
  if latency =? 0 then Infinity else Int (1000 / latency).

(** [loop], from its first line to the [await] (lines 50-54). [m] is the
    [model] the closure captured, [hasFrame] whether the stream has a
    tensor, [now] the reading of [Date.now()]. *)
Definition loop (m : option PoseDetector) (hasFrame : bool) (now : Z)
    (a : App) : App :=
  let a := record LoopEntered a in
  let '(tensor, a) := images_next hasFrame a in
  match m, tensor with
  | Some md, Some t =>
      let a := record (EstimateCalled md t) a in
      with_awaiting (awaiting a ++ [mkAwaiting md t now]) a
  | _, _ => record (LoopThrew "no model") a
  end.

(** [updatePreview(); gl.endFrameEXP()] (lines 66-67). [updatePreview]
    reads the camera component, which [<TensorCamera>] clears when it
    unmounts: on an unmounted camera the call throws. *)
Definition presentFrame (a : App) : option App :=
  if mounted a then Some (record FramePresented a) else None.

(** [loop], from the value of the [await] to its end (lines 54-69). *)
Definition loop_resumed (w : Awaiting) (ps : list Pose.t) (now : Z)
    (a : App) : App :=
  let latency := now - startTs w in
  let a := setFps (Math_floor_1000_over latency) a in
  let a := setPoses ps a in
  let a := tf_dispose (imageTensor w) a in
  match rafId a with
  | Some 0 => a
  | _ =>
      match (if negb AUTO_RENDER then presentFrame a else Some a) with
      | Some a =>
          let '(id, a) := requestAnimationFrame (Some (detector w)) a in
          with_rafId (Some id) a
      | None => record (LoopThrew "updatePreview") a
      end
  end.

(** [handleCameraStream]: defines [loop] over the current [model] and
    calls it (lines 48-72). *)
Definition handleCameraStream (hasFrame : bool) (now : Z) (a : App) : App :=
  loop (model (state a)) hasFrame now a.

(** The cleanup of the second effect (lines 157-162). *)
Definition cleanup (a : App) : App :=
  let a := record CleanupRan a in
  match rafId a with
  | Some id =>
      if negb (id =? 0)
      then with_rafId (Some 0) (cancelAnimationFrame id a)
      else a
  | None => a
  end.

(** What can happen to a mounted component. *)
Inductive Event : Type :=
| OrientationChange (o : Orientation)     (* the orientation query or listener *)
| TfReady                                 (* [await tf.ready()] returns *)
| DetectorCreated (m : PoseDetector)      (* [createDetector] resolves *)
| DetectorFailed                          (* [createDetector] rejects *)
| CameraReady (hasFrame : bool) (now : Z) (* TensorCamera calls [onReady] *)
| AnimationFrame (hasFrame : bool) (now : Z) (* the oldest request is run *)
| PosesEstimated (ps : list Pose.t) (now : Z) (* [estimatePoses] resolves *)
| EstimationFailed                        (* [estimatePoses] rejects *)
| Unmount.

(** One event; [None] when the event cannot happen in this state.
    [<TensorCamera>] is rendered, and so can call [onReady], only when
    [tfReady] holds (line 168); it calls it once. Its stream of tensors
    ends when it unmounts. *)
Definition step (a : App) (e : Event) : option App :=
  match e with
  | OrientationChange o => Some (setOrientation o a)
  | TfReady =>
      if tfReady (state a) then None else Some (setTfReady true a)
  | DetectorCreated m =>
      if tfReady (state a) && negb (detectorSettled a)
      then Some (record (DetectorReady m)
                        (setModel m (with_detectorSettled true a)))
      else None
  | DetectorFailed =>
      if tfReady (state a) && negb (detectorSettled a)
      then Some (with_detectorSettled true a)
      else None
  | CameraReady hasFrame now =>
      if mounted a && tfReady (state a) && negb (cameraStarted a)
      then Some (handleCameraStream hasFrame now (with_cameraStarted true a))
      else None
  | AnimationFrame hasFrame now =>
      match frameRequests a with
      | (_, m) :: rest =>
          Some (loop m (hasFrame && mounted a) now
                     (with_frames (nextFrame a) rest a))
      | [] => None
      end
  | PosesEstimated ps now =>
      match awaiting a with
      | w :: rest => Some (loop_resumed w ps now (with_awaiting rest a))
      | [] => None
      end
  | EstimationFailed =>
      match awaiting a with
      | w :: rest =>
          Some (record (LoopThrew "estimatePoses") (with_awaiting rest a))
      | [] => None
      end
  | Unmount =>
      if mounted a then Some (cleanup (with_mounted false a)) else None
  end.

Fixpoint run (a : App) (evs : list Event) : option App :=
  match evs with
  | [] => Some a
  | e :: rest =>
      match step a e with
      | Some a' => run a' rest
      | None => None
      end
  end.

(** The component as mounted: the initial values of [useState] and
    [useRef], and [rafId.current = null] of the first effect. *)
Definition initial : App :=
  {| state := {| tfReady := false; cameraType := front; model := None;
                 fps := Int 0; poses := None; orientation := None |};
     rafId := None;
     mounted := true;
     detectorSettled := false;
     cameraStarted := false;
     nextTensor := O;
     live := [];
     nextFrame := 1;
     frameRequests := [];
     awaiting := [];
     log := [] |}.

(** Calls of [estimatePoses] in a history, and the part of a history that
    follows the unmount cleanup. *)
Definition isEstimate (act : Action) : bool :=
  match act with EstimateCalled _ _ => true | _ => false end.

Definition isDispose (t : Tensor) (act : Action) : bool :=
  match act with TensorDisposed u => Nat.eqb t u | _ => false end.

Fixpoint afterCleanup (l : list Action) : list Action :=
  match l with
  | [] => []
  | CleanupRan :: rest => rest
  | _ :: rest => afterCleanup rest
  end.

Definition disposals (t : Tensor) (l : list Action) : nat :=
  List.length (filter (isDispose t) l).

Definition estimates (l : list Action) : nat :=
  List.length (filter isEstimate l).

(** The events that make a call of [loop]. *)
Definition startsIteration (e : Event) : bool :=
  match e with
  | CameraReady _ _ | AnimationFrame _ _ => true
  | _ => false
  end.

(** ** Notions the statements below are written with *)

(** A React state for a render, given what [renderPose] reads. *)
Definition rendering (o : option Orientation) (c : CameraType)
    (ps : option (list Pose.t)) : ReactState :=
  {| tfReady := true; cameraType := c; model := None; fps := Int 0;
     poses := ps; orientation := o |}.



(** The positions, counted from [n], of the elements of a list that pass a
    test. *)
Fixpoint keptFrom {A : Type} (f : A -> bool) (n : nat) (l : list A)
  : list nat :=
  match l with
  | [] => []
  | x :: rest =>
      if f x then n :: keptFrom f (S n) rest else keptFrom f (S n) rest
  end.

(** The real number a binary64 value stands for, as a whole number of units
    of 2^-1074 (the smallest positive binary64 value); [None] for the
    infinities and NaN. *)
Definition scaled (f : spec_float) : option Z :=
  match f with
  | S754_zero _ => Some 0
  | S754_finite s m e => Some (cond_Zopp s (Zpos m) * 2 ^ (e + 1074))
  | S754_infinity _ | S754_nan => None
  end.

Definition exactValue (x : float) : option Z := scaled (Prim2SF x).

(** The subtraction [w - x] is exact: [w] and [x] are finite and the
    binary64 result is their real difference, nothing is rounded away. *)
Definition subtractsExactly (w x : float) : bool :=
  match exactValue w, exactValue x, exactValue (w - x) with
  | Some vw, Some vx, Some vd => vd =? vw - vx
  | _, _, _ => false
  end.

(** At most one tensor, one suspended call and one request at a time. *)
Definition serial (a : App) : Prop :=
  (cameraStarted a = false ->
     live a = [] /\ awaiting a = [] /\ frameRequests a = []) /\
  (List.length (live a) + List.length (frameRequests a) <= 1)%nat /\
  (forall w rest, awaiting a = w :: rest ->
     rest = [] /\ live a = [imageTensor w]).

(** Every call of [estimatePoses] in a history comes after the creation of
    the detector it is made on. *)
Definition licensed (l : list Action) : Prop :=
  forall pre m t post,
    l = pre ++ EstimateCalled m t :: post -> In (DetectorReady m) pre.

Definition detectorsKnown (a : App) : Prop :=
  licensed (log a) /\
  (forall m, model (state a) = Some m -> In (DetectorReady m) (log a)) /\
  (forall id m, In (id, Some m) (frameRequests a) ->
     In (DetectorReady m) (log a)) /\
  (forall w, In w (awaiting a) -> In (DetectorReady (detector w)) (log a)).

(** No call of [loop] is suspended and none is requested: the loop is over,
    by [return] or by an exception. *)
Definition loopOver (a : App) : Prop :=
  cameraStarted a = true /\ awaiting a = [] /\ frameRequests a = [].

(** ** Sample executions *)

(** The component unmounts while the first call of [loop] awaits its
    estimation. *)
Definition earlyUnmount : list Event :=
  [TfReady; DetectorCreated 7; CameraReady true 0; Unmount].

(** The component once TensorFlow is ready and the detector is created. *)
Definition readyToStart : App :=
  match run initial [TfReady; DetectorCreated 7] with
  | Some a => a
  | None => initial
  end.

(** The component while the first call of [loop] awaits its estimation. *)
Definition firstFrame : list Event :=
  [TfReady; DetectorCreated 7; CameraReady true 100].

Definition estimating : App :=
  match run initial firstFrame with
  | Some a => a
  | None => initial
  end.

Definition nose : Keypoint.t :=
  Keypoint.mk 90 160 (Some 0.9%float) (Some "nose"%string).
Definition left_eye : Keypoint.t :=
  Keypoint.mk 80 150 (Some 0.25%float) (Some "left_eye"%string).
Definition right_eye : Keypoint.t :=
  Keypoint.mk 100 150 None (Some "right_eye"%string).
Definition samplePose : Pose.t :=
  Pose.mk [nose; left_eye; right_eye] (Some 0.8%float).
Definition androidPhone : Device := mkDevice android 360.
Definition iPhone : Device := mkDevice ios 390.

(** ** Notions for further properties of the loop *)

(** What a call of [loop] does that can be observed. *)
Definition isLoopActivity (act : Action) : bool :=
  match act with
  | LoopEntered | TensorAcquired _ | EstimateCalled _ _ | FramePresented => true
  | _ => false
  end.

Definition loopActivity (l : list Action) : nat :=
  List.length (filter isLoopActivity l).

(** How [rafId.current] stands to the pending requests. *)
Definition handleTracked (a : App) : Prop :=
  serial a /\
  (forall r, In r (frameRequests a) -> rafId a = Some (fst r)) /\
  0 < nextFrame a /\
  (mounted a = true -> rafId a <> Some 0) /\
  (rafId a <> None -> cameraStarted a = true).

(** The cleanup has marked the loop cancelled. *)
Definition cancelled (a : App) : Prop :=
  rafId a = Some 0 /\ frameRequests a = [] /\ cameraStarted a = true /\
  mounted a = false.

Definition isAcquire (t : Tensor) (act : Action) : bool :=
  match act with TensorAcquired u => Nat.eqb t u | _ => false end.

Definition acquisitions (t : Tensor) (l : list Action) : nat :=
  List.length (filter (isAcquire t) l).

(** Every tensor handed out is accounted for: acquired at most once, and
    held exactly when it was acquired and not disposed. *)
Definition accounted (a : App) : Prop :=
  forall t,
    acquisitions t (log a)
    = (disposals t (log a) + count_occ Nat.eq_dec (live a) t)%nat /\
    (acquisitions t (log a) <= 1)%nat /\
    (nextTensor a <= t -> acquisitions t (log a) = 0)%nat.

(** What a call of [loop] appends to the history before it suspends or
    throws. *)
Definition loopEmits (m : option PoseDetector) (hasFrame : bool)
    (t : Tensor) : list Action :=
  LoopEntered ::
  (if hasFrame
   then TensorAcquired t ::
        match m with
        | Some md => [EstimateCalled md t]
        | None => [LoopThrew "no model"]
        end
   else [LoopThrew "no model"]).

(** What an event appends to the history. *)
Definition emitted (a : App) (e : Event) : list Action :=
  match e with
  | DetectorCreated m => [DetectorReady m]
  | CameraReady hasFrame _ =>
      loopEmits (model (state a)) hasFrame (nextTensor a)
  | AnimationFrame hasFrame _ =>
      match frameRequests a with
      | (_, m) :: _ => loopEmits m (hasFrame && mounted a) (nextTensor a)
      | [] => []
      end
  | PosesEstimated _ _ =>
      match awaiting a with
      | w :: _ =>
          TensorDisposed (imageTensor w) ::
          match rafId a with
          | Some 0 => []
          | _ => if mounted a then [FramePresented]
                 else [LoopThrew "updatePreview"]
          end
      | [] => []
      end
  | EstimationFailed => [LoopThrew "estimatePoses"]
  | Unmount => [CleanupRan]
  | OrientationChange _ | TfReady | DetectorFailed => []
  end.

(** Every call of [estimatePoses] in a history is made on a tensor that
    was acquired before and not disposed before. *)
Definition onHeldTensor (l : list Action) : Prop :=
  forall pre m t post,
    l = pre ++ EstimateCalled m t :: post ->
    acquisitions t pre = 1%nat /\ disposals t pre = 0%nat.

(** What the loop itself appends to a history: everything but the creation
    of the detector and the unmount cleanup. *)
Definition isLoopStep (act : Action) : bool :=
  match act with
  | DetectorReady _ | CleanupRan => false
  | _ => true
  end.

Definition loopSteps (l : list Action) : nat :=
  List.length (filter isLoopStep l).

Definition isThrow (act : Action) : bool :=
  match act with LoopThrew _ => true | _ => false end.

(** A call of [loop] that threw ended the loop. *)
Definition throwIsFinal (a : App) : Prop :=
  existsb isThrow (log a) = true -> loopOver a.

(** A detector whose creation is in the history is the [model], and the
    creation has settled. *)
Definition oneDetector (a : App) : Prop :=
  forall m, In (DetectorReady m) (log a) ->
            model (state a) = Some m /\ detectorSettled a = true.

(** The creation of the detector failed and none was created. *)
Definition withoutDetector (a : App) : Prop :=
  detectorSettled a = true /\ forall m, ~ In (DetectorReady m) (log a).

(** Every requested call of [loop] is a closure over a model. *)
Definition requestsHaveModel (a : App) : Prop :=
  forall id m, In (id, m) (frameRequests a) -> m <> None.

(** Once the component is unmounted no call of [loop] stays requested, and
    the history holds no activity of the loop after the cleanup. *)
Definition quietOnceUnmounted (a : App) : Prop :=
  (mounted a = true -> ~ In CleanupRan (log a)) /\
  (mounted a = false ->
     In CleanupRan (log a) /\ frameRequests a = [] /\
     loopActivity (afterCleanup (log a)) = 0%nat).

(** A call of [loop] is suspended or requested only once an estimation was
    started. *)
Definition estimatedBefore (a : App) : Prop :=
  (awaiting a = [] /\ frameRequests a = []) \/ (0 < estimates (log a))%nat.

(** The state an execution ends in ([initial] when the events cannot
    happen in that order). *)
Definition after (evs : list Event) : App :=
  match run initial evs with
  | Some a => a
  | None => initial
  end.

(** The first frame resolves and the second call of [loop] awaits its
    estimation. *)
Definition secondFrame : list Event :=
  firstFrame ++ [PosesEstimated [] 150; AnimationFrame true 166].

(** * The overlay *)

(** ** Comparison of binary64 values *)

Lemma SFleb_not_SFltb (u v : spec_float) :
  SFleb u v = true -> SFltb v u = false.
Proof.
  unfold SFleb, SFltb.
  destruct u as [su|su| |su mu eu], v as [sv|sv| |sv mv ev]; simpl;
    try discriminate; try reflexivity;
    try (destruct su; simpl; try discriminate; reflexivity);
    try (destruct sv; simpl; try discriminate; reflexivity);
    try (destruct su, sv; simpl; try discriminate; reflexivity).
  assert (E : PosDef.Pos.compare_cont Eq mv mu
              = CompOpp (PosDef.Pos.compare_cont Eq mu mv))
    by (rewrite (Pos.compare_cont_antisym mu mv Eq); reflexivity).
  destruct su, sv; simpl; try discriminate; try reflexivity;
    rewrite (Z.compare_antisym eu ev), E;
    destruct (eu ?= ev); simpl; try discriminate; try reflexivity;
    destruct (PosDef.Pos.compare_cont Eq mu mv); simpl;
    try discriminate; reflexivity.
Qed.

(** JavaScript's [u <= v] excludes [v < u] (neither holds on [NaN]). *)
Lemma leb_not_ltb (u v : float) :
  (u <=? v)%float = true -> (v <? u)%float = false.
Proof.
  rewrite leb_spec, ltb_spec. apply SFleb_not_SFltb.
Qed.

(** ** Filtering by score *)

Lemma keptFrom_count {A : Type} (f : A -> bool) (l : list A) (n i : nat) :
  count_occ Nat.eq_dec (keptFrom f n l) i
  = match (if (n <=? i)%nat then nth_error l (i - n) else None) with
    | Some x => if f x then 1%nat else 0%nat
    | None => 0%nat
    end.
Proof.
  revert n. induction l as [|x l IH]; intro n; cbn [keptFrom].
  - destruct (n <=? i)%nat; [|reflexivity]. destruct (i - n)%nat; reflexivity.
  - specialize (IH (S n)).
    destruct (lt_eq_lt_dec n i) as [[L|E]|G].
    + (* the position lies further on *)
      assert (N : n <> i) by lia.
      assert (T : count_occ Nat.eq_dec (keptFrom f (S n) l) i
                  = count_occ Nat.eq_dec
                      (if f x then n :: keptFrom f (S n) l
                       else keptFrom f (S n) l) i).
      { destruct (f x); [|reflexivity].
        now rewrite count_occ_cons_neq by exact N. }
      rewrite <- T, IH.
      destruct (Nat.leb_spec (S n) i), (Nat.leb_spec n i); try lia.
      replace (i - n)%nat with (S (i - S n)) by lia. reflexivity.
    + (* the position is this one *)
      subst i. rewrite Nat.leb_refl, Nat.sub_diag. cbn [nth_error].
      destruct (Nat.leb_spec (S n) n); [lia|].
      destruct (f x); [|exact IH].
      rewrite count_occ_cons_eq by reflexivity. now rewrite IH.
    + (* the position was passed *)
      assert (N : n <> i) by lia.
      destruct (Nat.leb_spec (S n) i), (Nat.leb_spec n i); try lia.
      destruct (f x); [|exact IH].
      now rewrite count_occ_cons_neq by exact N.
Qed.

Lemma keptFrom_lookup {A : Type} (f : A -> bool) (pre l : list A) :
  map (nth_error (pre ++ l)) (keptFrom f (List.length pre) l)
  = map Some (filter f l).
Proof.
  revert pre. induction l as [|x l IH]; intro pre; [reflexivity|].
  assert (T : map (nth_error (pre ++ x :: l))
                  (keptFrom f (S (List.length pre)) l)
              = map Some (filter f l)).
  { specialize (IH (pre ++ [x])).
    rewrite <- app_assoc, length_app, Nat.add_comm in IH. exact IH. }
  cbn [keptFrom filter]. destruct (f x); [|exact T].
  cbn [map]. rewrite T. f_equal.
  rewrite nth_error_app2, Nat.sub_diag by lia. reflexivity.
Qed.

(** C4. When a pose is rendered, the circles are those of the keypoints at
    a list [src] of positions of the pose's keypoint list, one circle for
    each position listed, in which the position of a keypoint whose score
    is absent, or is [<= 0.3], does not occur, and the position of a
    keypoint whose score is [> 0.3] occurs exactly once. *)
Theorem threshold_filter (d : Device) (s : ReactState) (p : Pose.t)
    (rest : list Pose.t) :
  poses s = Some (p :: rest) ->
  exists circles src,
    renderPose d s = Svg circles /\
    map Some circles
    = map (fun i => option_map (toCircle d s)
                               (nth_error (Pose.keypoints p) i)) src /\
    forall i k, nth_error (Pose.keypoints p) i = Some k ->
      (Keypoint.score k = None -> count_occ Nat.eq_dec src i = 0%nat) /\
      (forall v, Keypoint.score k = Some v ->
         ((v <=? 0.3)%float = true -> count_occ Nat.eq_dec src i = 0%nat) /\
         ((0.3 <? v)%float = true -> count_occ Nat.eq_dec src i = 1%nat)).
Proof.
  intro Hp. unfold renderPose. rewrite Hp.
  exists (map (toCircle d s) (filter aboveThreshold (Pose.keypoints p))),
         (keptFrom aboveThreshold 0 (Pose.keypoints p)).
  split; [reflexivity|]. split.
  - rewrite <- (map_map (nth_error (Pose.keypoints p))
                        (option_map (toCircle d s))).
    pose proof (keptFrom_lookup aboveThreshold [] (Pose.keypoints p)) as K.
    cbn [app List.length] in K. rewrite K, !map_map. reflexivity.
  - intros i k Hk. rewrite keptFrom_count. cbn [Nat.leb].
    rewrite Nat.sub_0_r, Hk.
    unfold aboveThreshold, scoreOrZero, MIN_KEYPOINT_SCORE.
    split.
    + intros ->. reflexivity.
    + intros v ->. split; intro Hv.
      * apply leb_not_ltb in Hv. now rewrite Hv.
      * now rewrite Hv.
Qed.

Lemma threshold_filter_witness :
  exists circles src,
    renderPose androidPhone
      (rendering (Some PORTRAIT_UP) front (Some [samplePose])) = Svg circles /\
    map Some circles
    = map (fun i =>
             option_map
               (toCircle androidPhone
                  (rendering (Some PORTRAIT_UP) front (Some [samplePose])))
               (nth_error [nose; left_eye; right_eye] i)) src /\
    count_occ Nat.eq_dec src 0%nat = 1%nat /\
    count_occ Nat.eq_dec src 1%nat = 0%nat /\
    count_occ Nat.eq_dec src 2%nat = 0%nat.
Proof.
  destruct (threshold_filter androidPhone
              (rendering (Some PORTRAIT_UP) front (Some [samplePose]))
              samplePose [] eq_refl) as (circles & src & E & M & H).
  exists circles, src. split; [exact E|]. split; [exact M|].
  split; [|split].
  - apply (proj2 (H 0%nat nose eq_refl) 0.9%float eq_refl). reflexivity.
  - apply (proj2 (H 1%nat left_eye eq_refl) 0.25%float eq_refl). reflexivity.
  - apply (proj1 (H 2%nat right_eye eq_refl)). reflexivity.
Defined.

(** ** Mirroring and scaling *)


Lemma android_iff (d : Device) : IS_ANDROID d = true <-> OS d = android.
Proof. unfold IS_ANDROID. destruct (OS d); simpl; split; congruence. Qed.

Lemma back_iff (s : ReactState) :
  match cameraType s with back => true | front => false end = true
  <-> cameraType s = back.
Proof. destruct (cameraType s); split; congruence. Qed.

(** C6. The x-coordinate is mirrored, as [outputWidth - x], exactly when
    the platform is Android or the camera is the back camera; otherwise it
    is the keypoint's own x; the result is what the circle is drawn from. *)
Theorem mirror_rule (d : Device) (s : ReactState) (k : Keypoint.t) :
  (flipX d s = true <-> OS d = android \/ cameraType s = back) /\
  (OS d = android \/ cameraType s = back ->
     flippedX d s k = (getOutputTensorWidth d s - Keypoint.x k)%float) /\
  (~ (OS d = android \/ cameraType s = back) ->
     flippedX d s k = Keypoint.x k) /\
  cx (toCircle d s k)
  = (flippedX d s k / getOutputTensorWidth d s
     * (if isPortrait s then CAM_PREVIEW_WIDTH d
        else CAM_PREVIEW_HEIGHT d))%float.
Proof.
  assert (F : flipX d s = true <-> OS d = android \/ cameraType s = back).
  { unfold flipX. rewrite orb_true_iff, android_iff, back_iff. tauto. }
  repeat split; try apply F.
  - intro H. apply F in H. unfold flippedX. now rewrite H.
  - intro H. unfold flippedX. destruct (flipX d s); [|reflexivity].
    exfalso. apply H, F. reflexivity.
Qed.



(** ** Mirroring twice *)

(** Rounding a real number that is a binary64 value. *)

Lemma digits2_log2 (m : positive) :
  Zpos (digits2_pos m) = Z.log2 (Zpos m) + 1.
Proof.
  assert (E : forall p, digits2_pos p = Pos.size p)
    by (induction p; simpl; congruence).
  rewrite E. destruct m; simpl; lia.
Qed.

Lemma digits2_shift (m m' : positive) (k : Z) :
  0 <= k -> Zpos m' = Zpos m * 2 ^ k ->
  Zpos (digits2_pos m') = Zpos (digits2_pos m) + k.
Proof.
  intros Hk E. rewrite !digits2_log2, E, Z.log2_mul_pow2 by lia. lia.
Qed.

Lemma iter_xO (m : positive) (n : nat) :
  Zpos (Nat.iter n xO m) = Zpos m * 2 ^ Z.of_nat n.
Proof.
  induction n as [|n IH]; [simpl; lia|].
  rewrite Nat.iter_succ, Pos2Z.inj_xO, IH, Nat2Z.inj_succ, Z.pow_succ_r by lia.
  lia.
Qed.

Lemma pos_iter_xO (m d : positive) :
  Zpos (Pos.iter xO m d) = Zpos m * 2 ^ Zpos d.
Proof.
  rewrite Pos2Nat.inj_iter.
  change (nat_rect (fun _ => positive) m (fun _ => xO) (Pos.to_nat d))
    with (Nat.iter (Pos.to_nat d) xO m).
  now rewrite iter_xO, positive_nat_Z.
Qed.

Lemma iter_pos_nat {A : Type} (f : A -> A) (p : positive) (x : A) :
  iter_pos f p x = Nat.iter (Pos.to_nat p) f x.
Proof.
  revert x. induction p as [p IH|p IH|]; intro x; cbn [iter_pos].
  - rewrite !IH, Pos2Nat.inj_xI, <- Nat.iter_add.
    replace (S (2 * Pos.to_nat p)) with (S (Pos.to_nat p + Pos.to_nat p))%nat
      by lia.
    now rewrite Nat.iter_succ, Nat.iter_swap.
  - rewrite !IH, Pos2Nat.inj_xO, <- Nat.iter_add. f_equal. lia.
  - reflexivity.
Qed.

(** Shifting out the zero bits a mantissa was padded with loses nothing. *)
Lemma shr_padded (m : positive) (n : nat) :
  Nat.iter n shr_1 (Build_shr_record (Zpos (Nat.iter n xO m)) false false)
  = Build_shr_record (Zpos m) false false.
Proof.
  induction n as [|n IH]; [reflexivity|].
  rewrite Nat.iter_succ, <- Nat.iter_swap. exact IH.
Qed.

Lemma of_padded (m m' : positive) (k : Z) :
  0 <= k -> Zpos m' = Zpos m * 2 ^ k -> m' = Nat.iter (Z.to_nat k) xO m.
Proof.
  intros Hk E. apply Pos2Z.inj. rewrite iter_xO, Z2Nat.id by exact Hk. exact E.
Qed.

Lemma canonical_exponent (m : positive) (e : Z) :
  bounded prec emax m e = true ->
  fexp prec emax (Zpos (digits2_pos m) + e) = e /\
  -1074 <= e <= emax - prec.
Proof.
  unfold bounded, canonical_mantissa. intro B.
  apply andb_prop in B. destruct B as [C L].
  apply Z.eqb_eq in C. apply Z.leb_le in L.
  split; [exact C|]. split; [|exact L].
  rewrite <- C. unfold fexp, emin, emax, prec. lia.
Qed.

(** [binary_round] returns a binary64 value unchanged, however its
    mantissa and exponent are presented. *)
Lemma binary_round_representable (s : bool) (M m : positive) (E e : Z) :
  bounded prec emax m e = true ->
  -1074 <= E ->
  Zpos M * 2 ^ (E + 1074) = Zpos m * 2 ^ (e + 1074) ->
  binary_round prec emax s M E = S754_finite s m e.
Proof.
  intros B HE V.
  destruct (canonical_exponent m e B) as (C & He & Le).
  assert (Final : binary_round_aux prec emax s (Zpos m) e loc_Exact
                  = S754_finite s m e).
  { unfold binary_round_aux, shr_fexp. simpl Zdigits2. rewrite C, Z.sub_diag.
    cbn [shr shr_record_of_loc shr_m round_nearest_even loc_of_shr_record
         Zdigits2].
    rewrite C, Z.sub_diag. cbn [shr shr_record_of_loc shr_m].
    apply Z.leb_le in Le. now rewrite Le. }
  unfold binary_round.
  destruct (Z_lt_le_dec e E) as [Lt|Ge].
  - (* the mantissa is padded up to the canonical exponent *)
    assert (Em : Zpos m = Zpos M * 2 ^ (E - e)).
    { replace (E + 1074) with ((E - e) + (e + 1074)) in V by lia.
      rewrite (Z.pow_add_r 2 (E - e) (e + 1074)), Z.mul_assoc in V by lia.
      apply Z.mul_reg_r in V; [now symmetry|].
      apply Z.pow_nonzero; lia. }
    assert (D : Zpos (digits2_pos M) + E = Zpos (digits2_pos m) + e).
    { rewrite (digits2_shift M m (E - e)) by (lia || exact Em). lia. }
    rewrite D, C. unfold shl_align.
    destruct (e - E) as [|d|d] eqn:G; try lia.
    assert (Pos.iter xO M d = m).
    { apply Pos2Z.inj. rewrite pos_iter_xO, Em.
      rewrite <- Pos2Z.opp_pos in G.
      replace (E - e) with (Zpos d) by lia. reflexivity. }
    subst m. exact Final.
  - (* the mantissa carries zero bits below the canonical exponent *)
    assert (Em : Zpos M = Zpos m * 2 ^ (e - E)).
    { replace (e + 1074) with ((e - E) + (E + 1074)) in V by lia.
      rewrite (Z.pow_add_r 2 (e - E) (E + 1074)), Z.mul_assoc in V by lia.
      apply Z.mul_reg_r in V; [exact V|].
      apply Z.pow_nonzero; lia. }
    assert (D : Zpos (digits2_pos M) + E = Zpos (digits2_pos m) + e).
    { rewrite (digits2_shift m M (e - E)) by (lia || exact Em). lia. }
    rewrite D, C. unfold shl_align.
    destruct (e - E) as [|d|d] eqn:G; try lia.
    + assert (M = m) by (apply Pos2Z.inj; rewrite Em, Z.pow_0_r; lia).
      assert (E = e) by lia. subst M E. exact Final.
    + unfold binary_round_aux, shr_fexp. simpl Zdigits2. rewrite D, C, G.
      unfold shr, shr_record_of_loc.
      rewrite iter_pos_nat.
      rewrite (of_padded m M (Zpos d)) by (lia || exact Em).
      change (Z.to_nat (Zpos d)) with (Pos.to_nat d).
      rewrite shr_padded.
      cbn [shr_m round_nearest_even loc_of_shr_record Zdigits2].
      replace (E + Zpos d) with e by lia.
      rewrite C, Z.sub_diag. cbn [shr shr_record_of_loc shr_m].
      apply Z.leb_le in Le. now rewrite Le.
Qed.

Lemma signed_equal (s s' : bool) (a b : Z) :
  0 < a -> 0 < b -> cond_Zopp s a = cond_Zopp s' b -> s = s' /\ a = b.
Proof.
  destruct s, s'; simpl; intros; split; (reflexivity || lia).
Qed.

Lemma cond_Zopp_mul (s : bool) (a b : Z) :
  cond_Zopp s a * b = cond_Zopp s (a * b).
Proof. destruct s; simpl; lia. Qed.

Lemma scaled_pos (m : positive) (e : Z) :
  -1074 <= e -> 0 < Zpos m * 2 ^ (e + 1074).
Proof.
  intro L. pose proof (Z.pow_pos_nonneg 2 (e + 1074)). nia.
Qed.

(** A binary64 value is determined by the real number it stands for. *)
Lemma scaled_finite_inj (s s' : bool) (m m' : positive) (e e' : Z) :
  bounded prec emax m e = true -> bounded prec emax m' e' = true ->
  cond_Zopp s (Zpos m) * 2 ^ (e + 1074)
  = cond_Zopp s' (Zpos m') * 2 ^ (e' + 1074) ->
  S754_finite s m e = S754_finite s' m' e'.
Proof.
  intros B B' V.
  destruct (canonical_exponent m e B) as (_ & He & _).
  destruct (canonical_exponent m' e' B') as (_ & He' & _).
  rewrite !cond_Zopp_mul in V.
  apply signed_equal in V; try (apply scaled_pos; assumption).
  destruct V as [<- V].
  rewrite <- (binary_round_representable s m m e e B He eq_refl).
  exact (binary_round_representable s m m' e e' B' He V).
Qed.

Lemma shl_align_value (m : positive) (e e' : Z) :
  e' <= e ->
  Zpos (fst (shl_align m e e')) = Zpos m * 2 ^ (e - e').
Proof.
  intro L. unfold shl_align.
  destruct (e' - e) as [|d|d] eqn:G; simpl fst.
  - replace (e - e') with 0 by lia. lia.
  - lia.
  - rewrite pos_iter_xO. rewrite <- Pos2Z.opp_pos in G.
    replace (e - e') with (Zpos d) by lia. reflexivity.
Qed.

Lemma binary_normalize_representable (D E : Z) (s : bool) (m : positive)
    (e : Z) :
  bounded prec emax m e = true ->
  -1074 <= E ->
  D * 2 ^ (E + 1074) = cond_Zopp s (Zpos m) * 2 ^ (e + 1074) ->
  binary_normalize prec emax D E false = S754_finite s m e.
Proof.
  intros B HE V.
  destruct (canonical_exponent m e B) as (_ & He & _).
  pose proof (scaled_pos m e He) as P.
  rewrite cond_Zopp_mul in V.
  destruct D as [|M|M]; simpl binary_normalize.
  - rewrite Z.mul_0_l in V. destruct s; cbn [cond_Zopp] in V; lia.
  - change (Zpos M * 2 ^ (E + 1074))
      with (cond_Zopp false (Zpos M) * 2 ^ (E + 1074)) in V.
    rewrite cond_Zopp_mul in V.
    apply signed_equal in V; try (apply scaled_pos; assumption).
    destruct V as [<- V].
    now apply binary_round_representable.
  - change (Zneg M * 2 ^ (E + 1074))
      with (cond_Zopp true (Zpos M) * 2 ^ (E + 1074)) in V.
    rewrite cond_Zopp_mul in V.
    apply signed_equal in V; try (apply scaled_pos; assumption).
    destruct V as [<- V].
    now apply binary_round_representable.
Qed.

(** A subtraction whose real result is a binary64 value returns it. *)
Lemma SFsub_representable (w y : spec_float) (vw vy : Z) (s : bool)
    (m : positive) (e : Z) :
  valid_binary w = true -> valid_binary y = true ->
  bounded prec emax m e = true ->
  scaled w = Some vw -> scaled y = Some vy ->
  vw - vy = cond_Zopp s (Zpos m) * 2 ^ (e + 1074) ->
  SFsub prec emax w y = S754_finite s m e.
Proof.
  intros Vw Vy B Sw Sy V.
  destruct (canonical_exponent m e B) as (_ & He & _).
  pose proof (scaled_pos m e He) as P.
  destruct w as [sw|sw| |sw mw ew], y as [sy|sy| |sy my ey];
    simpl in Sw, Sy; try discriminate;
    inversion Sw; inversion Sy; subst vw vy; clear Sw Sy.
  - rewrite cond_Zopp_mul in V. destruct s; cbn [cond_Zopp] in V; lia.
  - simpl. simpl in Vy. apply scaled_finite_inj; try assumption.
    rewrite <- V. destruct sy; cbn [cond_Zopp negb]; lia.
  - simpl. simpl in Vw. apply scaled_finite_inj; try assumption.
    rewrite <- V. lia.
  - simpl in Vw, Vy.
    destruct (canonical_exponent mw ew Vw) as (_ & Hw & _).
    destruct (canonical_exponent my ey Vy) as (_ & Hy & _).
    unfold SFsub. apply binary_normalize_representable; [exact B|lia|].
    rewrite <- V, Z.mul_sub_distr_r, !cond_Zopp_mul.
    rewrite !shl_align_value by lia.
    rewrite <- !Z.mul_assoc, <- !Z.pow_add_r by lia.
    f_equal; f_equal; f_equal; f_equal; lia.
Qed.

(** C9, as the code has it. For finite [outputWidth] and [x], [x] not the
    negative zero: when the first subtraction [outputWidth - x] is exact,
    mirroring twice returns the x-coordinate,
    [outputWidth - (outputWidth - x) = x]. *)
Theorem mirror_twice_exact (w x : float) :
  subtractsExactly w x = true ->
  x <> neg_zero ->
  mirror w (mirror w x) = x.
Proof.
  unfold subtractsExactly, exactValue, mirror. intros Hx Hz.
  destruct (scaled (Prim2SF w)) as [vw|] eqn:Sw; [|discriminate].
  destruct (scaled (Prim2SF x)) as [vx|] eqn:Sx; [|discriminate].
  destruct (scaled (Prim2SF (w - x))) as [vd|] eqn:Sd; [|discriminate].
  apply Z.eqb_eq in Hx.
  pose proof (Prim2SF_valid w) as Vw.
  pose proof (Prim2SF_valid x) as Vx.
  pose proof (Prim2SF_valid (w - x)) as Vd.
  apply Prim2SF_inj. rewrite sub_spec.
  assert (Y : Prim2SF (w - x) = SF64sub (Prim2SF w) (Prim2SF x))
    by apply sub_spec.
  destruct (Prim2SF x) as [sx|sx| |sx mx ex] eqn:X; try discriminate.
  - destruct sx.
    + exfalso. apply Hz. rewrite <- (SF2Prim_Prim2SF x), X. reflexivity.
    + destruct (Prim2SF w) as [sw|sw| |sw mw ew]; try discriminate.
      * rewrite Y. destruct sw; reflexivity.
      * rewrite Y. unfold SF64sub. cbn [SFsub].
        now rewrite Z.sub_diag.
  - destruct (Prim2SF w) as [sw|sw| |sw mw ew] eqn:W; try discriminate.
    + rewrite Y. unfold SF64sub. cbn [SFsub]. now rewrite negb_involutive.
    + unfold SF64sub.
      apply (SFsub_representable _ _ vw vd); try assumption.
      simpl in Sx. inversion Sx. lia.
Qed.

Lemma mirror_twice_exact_witness :
  mirror (getOutputTensorWidth iPhone
            (rendering (Some LANDSCAPE_LEFT) back None))
    (mirror (getOutputTensorWidth iPhone
               (rendering (Some LANDSCAPE_LEFT) back None))
            179.9)
  = 179.9%float.
Proof.
  apply (mirror_twice_exact
           (getOutputTensorWidth iPhone
              (rendering (Some LANDSCAPE_LEFT) back None))
           179.9).
  - vm_compute. reflexivity.
  - intro H. apply (f_equal Prim2SF) in H. vm_compute in H. discriminate.
Defined.

(** The first subtraction is exact for 100.5, 90.25 and 179.9 with the
    widths the component uses, and not for 0.1; and the negative zero,
    whose subtraction is exact, comes back as the positive zero. *)
Lemma mirror_twice_samples :
  subtractsExactly 180 100.5 = true /\
  subtractsExactly 240 90.25 = true /\
  subtractsExactly 320 179.9 = true /\
  subtractsExactly 180 0.1 = false /\
  subtractsExactly 180 neg_zero = true /\
  mirror 180 (mirror 180 neg_zero) = zero.
Proof. vm_compute. repeat split. Qed.

(** C9, the claim as stated fails: in binary64, with the output width 180,
    mirroring x = 0.1 twice gives 0.099999999999994316, which JavaScript's
    [===] tells apart from 0.1. *)
Lemma mirror_twice_inexact :
  mirror OUTPUT_TENSOR_WIDTH (mirror OUTPUT_TENSOR_WIDTH 0.1)
  = 0.099999999999994316%float /\
  PrimFloat.eqb (mirror OUTPUT_TENSOR_WIDTH (mirror OUTPUT_TENSOR_WIDTH 0.1))
                0.1 = false /\
  ~ (forall w x : float, mirror w (mirror w x) = x).
Proof.
  split; [reflexivity|]. split; [reflexivity|].
  intro H. specialize (H 180%float 0.1%float).
  apply (f_equal (fun v => PrimFloat.eqb v 0.1)) in H.
  vm_compute in H. discriminate.
Qed.

(** ** No pose, or several *)

(** C10. With no pose list or an empty one the overlay is the empty
    [View]; otherwise it holds the circles of the first pose only, whatever
    the poses after it are. *)
Theorem empty_or_first_pose (d : Device) (o : option Orientation)
    (c : CameraType) :
  renderPose d (rendering o c None) = View /\
  renderPose d (rendering o c (Some [])) = View /\
  (forall p rest,
     renderPose d (rendering o c (Some (p :: rest)))
     = Svg (map (toCircle d (rendering o c (Some [p])))
                (filter aboveThreshold (Pose.keypoints p)))) /\
  (forall p rest rest',
     renderPose d (rendering o c (Some (p :: rest)))
     = renderPose d (rendering o c (Some (p :: rest')))).
Proof. repeat split. Qed.

(** * The frame loop *)

(** ** Executions *)

Lemma run_invariant (P : App -> Prop) :
  (forall a e a', P a -> step a e = Some a' -> P a') ->
  forall evs a a', P a -> run a evs = Some a' -> P a'.
Proof.
  intros Hstep evs. induction evs as [|e evs IH]; simpl; intros a a' Pa R.
  - now inversion R; subst.
  - destruct (step a e) as [a1|] eqn:S; [|discriminate].
    eapply IH; [eapply Hstep; eassumption | exact R].
Qed.

Lemma run_app (a : App) (l1 l2 : list Event) :
  run a (l1 ++ l2)
  = match run a l1 with Some a' => run a' l2 | None => None end.
Proof.
  revert a. induction l1 as [|e l1 IH]; simpl; intro a; [reflexivity|].
  destruct (step a e); [apply IH | reflexivity].
Qed.

Lemma disposals_snoc (t : Tensor) (l : list Action) (act : Action) :
  disposals t (l ++ [act])
  = (disposals t l + if isDispose t act then 1 else 0)%nat.
Proof.
  unfold disposals. rewrite filter_app, length_app. simpl.
  destruct (isDispose t act); reflexivity.
Qed.

Lemma estimates_snoc (l : list Action) (act : Action) :
  estimates (l ++ [act])
  = (estimates l + if isEstimate act then 1 else 0)%nat.
Proof.
  unfold estimates. rewrite filter_app, length_app. simpl.
  destruct (isEstimate act); reflexivity.
Qed.

(** ** One frame at a time *)

Lemma remove_single (t : Tensor) : remove Nat.eq_dec t [t] = [].
Proof. simpl. destruct (Nat.eq_dec t t); congruence. Qed.

Lemma serial_initial : serial initial.
Proof.
  split; [|split]; simpl; auto; discriminate.
Qed.

Ltac close_serial :=
  split; [|split]; simpl;
  [ try discriminate; auto;
    try match goal with
        | H : ?c = false -> _ |- ?c = false -> _ =>
            let G := fresh "G" in
            intro G; destruct (H G) as (? & ? & ?); discriminate
        end
  | auto; try lia
  | let w := fresh "w" in let r := fresh "r" in let E := fresh "E" in
    intros w r E; try discriminate; try (inversion E; subst; auto) ].

Lemma serial_step (a : App) (e : Event) (a' : App) :
  serial a -> step a e = Some a' -> serial a'.
Proof.
  intros (Hns & Hlen & Haw) S.
  destruct a as [st rid mo ds cs nt lv nf fr aw lg]; simpl in *.
  destruct e as [o| |m| |hasFrame now|hasFrame now|ps now| |]; simpl in S.
  - inversion S; subst; clear S. split; [|split]; simpl; eauto.
  - destruct (tfReady st); inversion S; subst; clear S.
    split; [|split]; simpl; eauto.
  - destruct (tfReady st && negb ds); inversion S; subst; clear S.
    split; [|split]; simpl; eauto.
  - destruct (tfReady st && negb ds); inversion S; subst; clear S.
    split; [|split]; simpl; eauto.
  - destruct (mo && tfReady st && negb cs) eqn:G; [|discriminate].
    apply andb_prop in G. destruct G as [_ G]. apply negb_true_iff in G.
    destruct (Hns G) as (-> & -> & ->).
    inversion S; subst; clear S.
    unfold handleCameraStream, loop, images_next; simpl.
    destruct hasFrame, (model st); simpl; close_serial.
  - destruct fr as [|[id m] rest]; [discriminate|].
    assert (cs = true)
      by (destruct cs; [auto | destruct (Hns eq_refl) as (_ & _ & X); discriminate]).
    simpl in Hlen. assert (lv = []) by (destruct lv; simpl in *; [auto|lia]).
    assert (rest = []) by (destruct rest; simpl in *; [auto|lia]).
    assert (aw = []).
    { destruct aw as [|w r]; [auto|]. destruct (Haw w r eq_refl). congruence. }
    subst. inversion S; subst; clear S.
    unfold loop, images_next; simpl.
    destruct hasFrame, mo, m; simpl; close_serial.
  - destruct aw as [|w rest]; [discriminate|].
    destruct (Haw w rest eq_refl) as (-> & ->).
    simpl in Hlen. assert (fr = []) by (destruct fr; simpl in *; [auto|lia]).
    subst. inversion S; subst; clear S.
    unfold loop_resumed, tf_dispose, presentFrame; cbn -[remove].
    rewrite remove_single.
    destruct rid as [[| |]|], mo; cbn -[remove]; close_serial.
  - destruct aw as [|w rest]; [discriminate|].
    destruct (Haw w rest eq_refl) as (-> & ->).
    inversion S; subst; clear S. close_serial.
  - destruct mo; [|discriminate]. inversion S; subst; clear S.
    unfold cleanup; simpl.
    assert (F : forall id : Z,
               (List.length lv
                + List.length (filter (fun r : Z * option PoseDetector =>
                                         negb (Z.eqb (fst r) id)) fr) <= 1)%nat).
    { intro id.
      pose proof (filter_length_le
                    (fun r : Z * option PoseDetector => negb (Z.eqb (fst r) id)) fr).
      lia. }
    destruct rid as [id|]; simpl; [destruct (id =? 0); simpl|];
      (split; [|split]; simpl; eauto).
    intro G. destruct (Hns G) as (-> & -> & ->). auto.
Qed.

(** C8. In every execution at most one tensor is acquired and not yet
    released, at most one call of [loop] is suspended, and a call of [loop]
    begins only when no tensor is held and no call is suspended: the frame
    before it has run to its end. *)
Theorem strictly_serial (evs : list Event) (a : App) :
  run initial evs = Some a ->
  (List.length (live a) <= 1)%nat /\
  (List.length (awaiting a) <= 1)%nat /\
  (forall e a', startsIteration e = true -> step a e = Some a' ->
     live a = [] /\ awaiting a = []).
Proof.
  intro R.
  assert (Hs : serial a)
    by (eapply (run_invariant serial serial_step); [apply serial_initial | exact R]).
  destruct Hs as (Hns & Hlen & Haw).
  assert (A1 : (List.length (awaiting a) <= 1)%nat).
  { destruct (awaiting a) as [|w r] eqn:E; simpl; [lia|].
    destruct (Haw w r eq_refl) as [-> _]. simpl. lia. }
  split; [lia|]. split; [exact A1|].
  intros e a' He S.
  destruct e as [o| |m| |hasFrame now|hasFrame now|ps now| |];
    try discriminate; simpl in S.
  - destruct (mounted a && tfReady (state a) && negb (cameraStarted a)) eqn:G;
      [|discriminate].
    apply andb_prop in G. destruct G as [_ G]. apply negb_true_iff in G.
    destruct (Hns G) as (-> & -> & _). auto.
  - destruct (frameRequests a) as [|[id m] rest] eqn:F; [discriminate|].
    simpl in Hlen.
    assert (L : live a = []) by (destruct (live a); simpl in *; [auto|lia]).
    split; [exact L|].
    destruct (awaiting a) as [|w r]; [auto|].
    destruct (Haw w r eq_refl). congruence.
Qed.

Lemma strictly_serial_witness :
  (List.length (live estimating) <= 1)%nat /\
  (List.length (awaiting estimating) <= 1)%nat /\
  (forall e a', startsIteration e = true -> step estimating e = Some a' ->
     live estimating = [] /\ awaiting estimating = []).
Proof.
  apply (strictly_serial firstFrame estimating). vm_compute. reflexivity.
Defined.

(** ** The detector comes first *)

Lemma snoc_split {A : Type} (pre post l : list A) (u v : A) :
  pre ++ u :: post = l ++ [v] ->
  (post = [] /\ pre = l /\ u = v) \/
  (exists post', post = post' ++ [v] /\ l = pre ++ u :: post').
Proof.
  destruct post as [|z post _] using rev_ind; intro E.
  - left. apply app_inj_tail in E. tauto.
  - right. exists post.
    change (pre ++ u :: post ++ [z]) with (pre ++ (u :: post) ++ [z]) in E.
    rewrite app_assoc in E. apply app_inj_tail in E.
    destruct E as [E ->]. auto.
Qed.

Lemma licensed_snoc (l : list Action) (act : Action) :
  licensed l ->
  (forall m t, act = EstimateCalled m t -> In (DetectorReady m) l) ->
  licensed (l ++ [act]).
Proof.
  intros L Hact pre m t post E.
  symmetry in E. apply snoc_split in E. destruct E as [(_ & -> & E)|(post' & _ & E)].
  - symmetry in E. eauto.
  - eapply L; eauto.
Qed.

Lemma detectorsKnown_initial : detectorsKnown initial.
Proof.
  repeat split; simpl; try contradiction; try discriminate.
  intros pre m t post E. destruct pre; discriminate.
Qed.

(** [detectorsKnown] reads four fields; a state that keeps the history and
    the model, and keeps or drops requests and suspended calls, keeps it. *)
Lemma known_weaken (a a' : App) :
  detectorsKnown a ->
  log a' = log a ->
  model (state a') = model (state a) ->
  incl (frameRequests a') (frameRequests a) ->
  incl (awaiting a') (awaiting a) ->
  detectorsKnown a'.
Proof.
  intros (HL & Hm & Hf & Hw) El Em If Iw.
  unfold detectorsKnown. rewrite El, Em.
  split; [exact HL|]. split; [exact Hm|]. split.
  - intros id m H. apply (Hf id). now apply If.
  - intros w H. apply Hw. now apply Iw.
Qed.

Lemma known_record (act : Action) (a : App) :
  detectorsKnown a ->
  (forall m t, act = EstimateCalled m t -> In (DetectorReady m) (log a)) ->
  detectorsKnown (record act a).
Proof.
  intros (HL & Hm & Hf & Hw) Hact. unfold detectorsKnown; simpl.
  split; [now apply licensed_snoc|].
  repeat split; intros; apply in_or_app; left; eauto.
Qed.

Lemma known_loop (m : option PoseDetector) (hasFrame : bool) (now : Z)
    (a : App) :
  detectorsKnown a ->
  (forall md, m = Some md -> In (DetectorReady md) (log a)) ->
  detectorsKnown (loop m hasFrame now a).
Proof.
  intros K Hm. unfold loop.
  assert (K1 : detectorsKnown (record LoopEntered a))
    by (apply known_record; [exact K | discriminate]).
  assert (H1 : forall md, m = Some md ->
                 In (DetectorReady md) (log (record LoopEntered a)))
    by (intros md E; simpl; apply in_or_app; left; auto).
  revert K1 H1. generalize (record LoopEntered a). clear K Hm a.
  intros a K Hm. unfold images_next.
  destruct hasFrame.
  - set (a1 := record (TensorAcquired (nextTensor a))
                      (with_tensors (S (nextTensor a)) (nextTensor a :: live a) a)).
    assert (K1 : detectorsKnown a1).
    { apply known_record; [|discriminate].
      eapply known_weaken; [exact K | | | |]; simpl;
        auto using incl_refl. }
    assert (H1 : forall md, m = Some md -> In (DetectorReady md) (log a1))
      by (intros md E; simpl; apply in_or_app; left; auto).
    destruct m as [md|]; [|apply known_record; [exact K1 | discriminate]].
    set (a2 := record (EstimateCalled md (nextTensor a)) a1).
    assert (K2 : detectorsKnown a2).
    { apply known_record; [exact K1|]. intros m t E. inversion E; subst. auto. }
    destruct K2 as (HL & Hm2 & Hf & Hw).
    unfold detectorsKnown; simpl. repeat split; auto.
    intros w H. apply in_app_or in H. destruct H as [H|[<-|[]]]; [auto|].
    simpl. apply in_or_app. left. auto.
  - destruct m; apply known_record; try exact K; discriminate.
Qed.

Lemma known_resumed (w : Awaiting) (ps : list Pose.t) (now : Z) (a : App) :
  detectorsKnown a ->
  In (DetectorReady (detector w)) (log a) ->
  detectorsKnown (loop_resumed w ps now a).
Proof.
  intros K Hd. unfold loop_resumed.
  set (a1 := tf_dispose (imageTensor w)
               (setPoses ps (setFps (Math_floor_1000_over (now - startTs w)) a))).
  assert (K1 : detectorsKnown a1).
  { apply known_record; [|discriminate].
    eapply known_weaken; [exact K | | | |]; simpl; auto using incl_refl. }
  assert (H1 : In (DetectorReady (detector w)) (log a1))
    by (simpl; apply in_or_app; left; exact Hd).
  assert (R : rafId a1 = rafId a) by reflexivity.
  clearbody a1. 
  assert (K2 : detectorsKnown
                 (with_rafId (Some (nextFrame (record FramePresented a1)))
                    (with_frames (nextFrame (record FramePresented a1) + 1)
                       (frameRequests (record FramePresented a1)
                        ++ [(nextFrame (record FramePresented a1),
                             Some (detector w))])
                       (record FramePresented a1)))).
  { assert (K3 : detectorsKnown (record FramePresented a1))
      by (apply known_record; [exact K1 | discriminate]).
    destruct K3 as (HL & Hm & Hf & Hw).
    unfold detectorsKnown; simpl. repeat split; auto.
    intros id m H. apply in_app_or in H. destruct H as [H|[H|[]]].
    - eapply Hf; eauto.
    - inversion H; subst. apply in_or_app. left. exact H1. }
  assert (K4 : detectorsKnown (record (LoopThrew "updatePreview") a1))
    by (apply known_record; [exact K1 | discriminate]).
  unfold presentFrame.
  destruct (rafId a1) as [[| |]|], (mounted a1); simpl; auto.
Qed.

Lemma detectorsKnown_step (a : App) (e : Event) (a' : App) :
  detectorsKnown a -> step a e = Some a' -> detectorsKnown a'.
Proof.
  intros K S. pose proof K as (HL & Hm & Hf & Hw).
  destruct e as [o| |m| |hasFrame now|hasFrame now|ps now| |]; simpl in S.
  - inversion S; subst; clear S.
    eapply known_weaken; [exact K | | | |]; simpl; auto using incl_refl.
  - destruct (tfReady (state a)); inversion S; subst; clear S.
    eapply known_weaken; [exact K | | | |]; simpl; auto using incl_refl.
  - destruct (tfReady (state a) && negb (detectorSettled a));
      inversion S; subst; clear S.
    unfold detectorsKnown; simpl. split; [|repeat split].
    + apply licensed_snoc; [exact HL | discriminate].
    + intros m' E. inversion E; subst. apply in_or_app. right. left. reflexivity.
    + intros id m' H. apply in_or_app. left. eauto.
    + intros w H. apply in_or_app. left. eauto.
  - destruct (tfReady (state a) && negb (detectorSettled a));
      inversion S; subst; clear S.
    eapply known_weaken; [exact K | | | |]; simpl; auto using incl_refl.
  - destruct (mounted a && tfReady (state a) && negb (cameraStarted a));
      inversion S; subst; clear S.
    unfold handleCameraStream. apply known_loop.
    + eapply known_weaken; [exact K | | | |]; simpl; auto using incl_refl.
    + simpl. exact Hm.
  - destruct (frameRequests a) as [|[id m] rest] eqn:F; [discriminate|].
    inversion S; subst; clear S. apply known_loop.
    + eapply known_weaken; [exact K | | | |]; simpl; auto using incl_refl.
      rewrite F. apply incl_tl, incl_refl.
    + intros md ->. simpl. apply (Hf id). left. reflexivity.
  - destruct (awaiting a) as [|w rest] eqn:A; [discriminate|].
    inversion S; subst; clear S. apply known_resumed.
    + eapply known_weaken; [exact K | | | |]; simpl; auto using incl_refl.
      rewrite A. apply incl_tl, incl_refl.
    + simpl. apply Hw. left. reflexivity.
  - destruct (awaiting a) as [|w rest] eqn:A; [discriminate|].
    inversion S; subst; clear S.
    apply known_record; [|discriminate].
    eapply known_weaken; [exact K | | | |]; simpl; auto using incl_refl.
    rewrite A. apply incl_tl, incl_refl.
  - destruct (mounted a); [|discriminate]. inversion S; subst; clear S.
    unfold cleanup.
    assert (K1 : detectorsKnown (record CleanupRan (with_mounted false a))).
    { apply known_record; [|discriminate].
      eapply known_weaken; [exact K | | | |]; simpl; auto using incl_refl. }
    destruct (rafId (record CleanupRan (with_mounted false a))) as [id|];
      [|exact K1].
    destruct (negb (id =? 0)); [|exact K1].
    eapply known_weaken; [exact K1 | | | |]; simpl; auto using incl_refl.
    apply incl_filter.
Qed.

(** C3, as the code has it. In every execution a call of [estimatePoses]
    comes after the creation of the detector it is made on has succeeded. *)
Theorem estimate_after_detector (evs : list Event) (a : App)
    (pre post : list Action) (m : PoseDetector) (t : Tensor) :
  run initial evs = Some a ->
  log a = pre ++ EstimateCalled m t :: post ->
  In (DetectorReady m) pre.
Proof.
  intros R E.
  assert (K : detectorsKnown a)
    by (eapply (run_invariant detectorsKnown detectorsKnown_step);
        [apply detectorsKnown_initial | exact R]).
  destruct K as [L _]. eapply L; eauto.
Qed.

Lemma estimate_after_detector_witness :
  In (DetectorReady 7) [DetectorReady 7; LoopEntered; TensorAcquired 0].
Proof.
  apply (estimate_after_detector firstFrame estimating
           [DetectorReady 7; LoopEntered; TensorAcquired 0] [] 7 0).
  - vm_compute. reflexivity.
  - vm_compute. reflexivity.
Defined.

(** C3, the claim as stated fails: the camera is rendered as soon as
    TensorFlow is ready, so [loop] is called while the detector is still
    being created, or after its creation failed; that call throws. *)
Lemma loop_starts_before_detector :
  (exists a,
     run initial [TfReady; CameraReady true 0] = Some a /\
     model (state a) = None /\ detectorSettled a = false /\
     log a = [LoopEntered; TensorAcquired 0; LoopThrew "no model"]) /\
  (exists a,
     run initial [TfReady; DetectorFailed; CameraReady true 0] = Some a /\
     model (state a) = None /\
     log a = [LoopEntered; TensorAcquired 0; LoopThrew "no model"]).
Proof.
  split; eexists; (split; [vm_compute; reflexivity|]); repeat split.
Qed.

(** ** The frame rate *)

Lemma loop_awaiting (m : option PoseDetector) (hasFrame : bool) (now : Z)
    (a : App) :
  awaiting (loop m hasFrame now a) = awaiting a \/
  exists md t, awaiting (loop m hasFrame now a)
               = awaiting a ++ [mkAwaiting md t now].
Proof.
  unfold loop, images_next.
  destruct hasFrame, m; simpl; eauto.
Qed.

Lemma resumed_fps (w : Awaiting) (ps : list Pose.t) (now : Z) (a : App) :
  fps (state (loop_resumed w ps now a)) = Math_floor_1000_over (now - startTs w).
Proof.
  unfold loop_resumed, presentFrame. cbn -[remove Z.div].
  destruct (rafId a) as [[| |]|], (mounted a); reflexivity.
Qed.

(** C7. When a call of [loop] made at time [now0] starts an estimation
    that resolves at time [now1], the frame rate it reports is the floor of
    1000 / (now1 - now0) ([Infinity] when the two times are equal); a latency
    of 50 ms gives 20. *)
Theorem frame_rate_reported (a a1 a2 : App) (e : Event) (hasFrame : bool)
    (now0 now1 : Z) (ps : list Pose.t) :
  e = CameraReady hasFrame now0 \/ e = AnimationFrame hasFrame now0 ->
  awaiting a = [] ->
  step a e = Some a1 ->
  awaiting a1 <> [] ->
  step a1 (PosesEstimated ps now1) = Some a2 ->
  let latency := now1 - now0 in
  (0 < latency ->
     exists f, fps (state a2) = Int f /\
               f * latency <= 1000 < (f + 1) * latency) /\
  (latency < 0 ->
     exists f, fps (state a2) = Int f /\
               (f + 1) * latency < 1000 <= f * latency) /\
  (latency = 0 -> fps (state a2) = Infinity) /\
  (latency = 50 -> fps (state a2) = Int 20).
Proof.
  intros He A0 S1 A1 S2 latency.
  assert (L : exists md t, awaiting a1 = [mkAwaiting md t now0]).
  { destruct He as [-> | ->]; simpl in S1.
    - destruct (mounted a && tfReady (state a) && negb (cameraStarted a));
        [|discriminate].
      inversion S1; subst; clear S1. unfold handleCameraStream in *.
      destruct (loop_awaiting (model (state (with_cameraStarted true a)))
                  hasFrame now0 (with_cameraStarted true a)) as [E|(md & t & E)].
      + exfalso. apply A1. rewrite E. exact A0.
      + exists md, t. rewrite E. simpl. now rewrite A0.
    - destruct (frameRequests a) as [|[id m] rest]; [discriminate|].
      inversion S1; subst; clear S1.
      destruct (loop_awaiting m (hasFrame && mounted a) now0
                  (with_frames (nextFrame a) rest a)) as [E|(md & t & E)].
      + exfalso. apply A1. rewrite E. exact A0.
      + exists md, t. rewrite E. simpl. now rewrite A0. }
  destruct L as (md & t & L). simpl in S2. rewrite L in S2.
  inversion S2; subst; clear S2. rewrite resumed_fps.   change (now1 - startTs (mkAwaiting md t now0)) with latency.
  unfold Math_floor_1000_over.
  repeat split.
  - intro H. destruct (Z.eqb_spec latency 0); [lia|].
    exists (1000 / latency). split; [reflexivity|].
    pose proof (Z.div_mod 1000 latency ltac:(lia)).
    pose proof (Z.mod_pos_bound 1000 latency H). nia.
  - intro H. destruct (Z.eqb_spec latency 0); [lia|].
    exists (1000 / latency). split; [reflexivity|].
    pose proof (Z.div_mod 1000 latency ltac:(lia)).
    pose proof (Z.mod_neg_bound 1000 latency H). nia.
  - intros ->. reflexivity.
  - intros ->. reflexivity.
Qed.

Lemma frame_rate_reported_witness :
  exists a2,
    step estimating (PosesEstimated [] 150) = Some a2 /\
    fps (state a2) = Int 20.
Proof.
  eexists. split; [vm_compute; reflexivity|].
  apply (frame_rate_reported readyToStart estimating _
           (CameraReady true 100) true 100 150 []).
  - left. reflexivity.
  - vm_compute. reflexivity.
  - vm_compute. reflexivity.
  - vm_compute. discriminate.
  - vm_compute. reflexivity.
  - reflexivity.
Defined.

(** ** Releasing the tensor *)

Lemma loopOver_step (a : App) (e : Event) (a' : App) (t : Tensor) :
  loopOver a -> step a e = Some a' ->
  loopOver a' /\ live a' = live a /\
  disposals t (log a') = disposals t (log a) /\
  estimates (log a') = estimates (log a).
Proof.
  intros (Hc & Ha & Hf) S.
  destruct a as [st rid mo ds cs nt lv nf fr aw lg]; simpl in *; subst.
  destruct e as [o| |m| |hasFrame now|hasFrame now|ps now| |]; simpl in S;
    try discriminate.
  - inversion S; subst. repeat split.
  - destruct (tfReady st); inversion S; subst. repeat split.
  - destruct (tfReady st && negb ds); inversion S; subst.
    unfold loopOver; simpl. rewrite disposals_snoc, estimates_snoc. simpl.
    repeat split; lia.
  - destruct (tfReady st && negb ds); inversion S; subst. repeat split.
  - rewrite andb_false_r in S. discriminate.
  - destruct mo; [|discriminate]. inversion S; subst.
    unfold cleanup, loopOver; simpl.
    destruct rid as [id|]; simpl; [destruct (id =? 0); simpl|];
      rewrite disposals_snoc, estimates_snoc; simpl; repeat split; lia.
Qed.

Lemma loopOver_run (t : Tensor) (evs : list Event) (a a' : App) :
  loopOver a -> run a evs = Some a' ->
  live a' = live a /\ disposals t (log a') = disposals t (log a) /\
  estimates (log a') = estimates (log a).
Proof.
  revert a. induction evs as [|e evs IH]; simpl; intros a Ho R.
  - inversion R; subst. auto.
  - destruct (step a e) as [a1|] eqn:S; [|discriminate].
    destruct (loopOver_step a e a1 t Ho S) as (Ho1 & E1 & E2 & E3).
    destruct (IH a1 Ho1 R) as (F1 & F2 & F3). repeat split; congruence.
Qed.

(** C1, on the code: a call of [loop] that throws keeps its tensor. With
    no model at the time the camera is ready, and likewise when
    [estimatePoses] rejects, the tensor the call acquired is never disposed,
    whatever happens afterwards. *)
Theorem tensor_leaks_on_error_paths :
  (exists a,
     run initial [TfReady; CameraReady true 0] = Some a /\
     log a = [LoopEntered; TensorAcquired 0; LoopThrew "no model"] /\
     forall evs a', run a evs = Some a' ->
       live a' = [0%nat] /\ disposals 0 (log a') = 0%nat) /\
  (exists a,
     run initial [TfReady; DetectorCreated 7; CameraReady true 0;
                  EstimationFailed] = Some a /\
     log a = [DetectorReady 7; LoopEntered; TensorAcquired 0;
              EstimateCalled 7 0; LoopThrew "estimatePoses"] /\
     forall evs a', run a evs = Some a' ->
       live a' = [0%nat] /\ disposals 0 (log a') = 0%nat).
Proof.
  split; eexists; (split; [vm_compute; reflexivity|]);
    (split; [reflexivity|]);
    intros evs a' R;
    (eapply (loopOver_run 0%nat) in R; [|repeat split]);
    destruct R as (-> & -> & _); split; reflexivity.
Qed.

(** ** Unmounting *)

Lemma afterCleanup_app (l1 l2 : list Action) :
  In CleanupRan l1 -> afterCleanup (l1 ++ l2) = afterCleanup l1 ++ l2.
Proof.
  induction l1 as [|x l1 IH]; simpl; [contradiction|].
  intros [->|H]; [reflexivity|].
  destruct x; auto.
Qed.


(** * Further properties *)

Lemma handleTracked_initial : handleTracked initial.
Proof.
  split; [apply serial_initial|]. simpl.
  repeat split; try contradiction; try discriminate; try lia.
Qed.

Lemma loop_frames (m : option PoseDetector) (hasFrame : bool) (now : Z)
    (a : App) :
  frameRequests (loop m hasFrame now a) = frameRequests a /\
  rafId (loop m hasFrame now a) = rafId a /\
  nextFrame (loop m hasFrame now a) = nextFrame a /\
  mounted (loop m hasFrame now a) = mounted a /\
  cameraStarted (loop m hasFrame now a) = cameraStarted a.
Proof.
  unfold loop, images_next. destruct hasFrame, m; simpl; repeat split.
Qed.

Lemma handleTracked_step (a : App) (e : Event) (a' : App) :
  handleTracked a -> step a e = Some a' -> handleTracked a'.
Proof.
  intros (Hs & Hr & Hn & Hm & Hc) S.
  split; [eapply serial_step; eassumption|].
  destruct Hs as (Hns & Hlen & Haw).
  destruct e as [o| |m| |hasFrame now|hasFrame now|ps now| |]; simpl in S.
  - inversion S; subst; clear S. simpl. auto.
  - destruct (tfReady (state a)); inversion S; subst; clear S. simpl. auto.
  - destruct (tfReady (state a) && negb (detectorSettled a));
      inversion S; subst; clear S. simpl. auto.
  - destruct (tfReady (state a) && negb (detectorSettled a));
      inversion S; subst; clear S. simpl. auto.
  - destruct (mounted a && tfReady (state a) && negb (cameraStarted a));
      inversion S; subst; clear S. unfold handleCameraStream.
    destruct (loop_frames (model (state (with_cameraStarted true a)))
                hasFrame now (with_cameraStarted true a))
      as (-> & -> & -> & -> & ->). simpl. auto.
  - destruct (frameRequests a) as [|[id m] rest] eqn:F; [discriminate|].
    inversion S; subst; clear S.
    destruct (loop_frames m (hasFrame && mounted a) now
                (with_frames (nextFrame a) rest a))
      as (-> & -> & -> & -> & ->). simpl.
    repeat split; auto. intros r H. apply Hr. now right.
  - destruct (awaiting a) as [|w rest] eqn:A; [discriminate|].
    destruct (Haw w rest eq_refl) as (-> & L).
    assert (F : frameRequests a = []).
    { rewrite L in Hlen. simpl in Hlen.
      destruct (frameRequests a); simpl in *; [auto | lia]. }
    assert (Cs : cameraStarted a = true).
    { destruct (cameraStarted a); [reflexivity|].
      destruct (Hns eq_refl) as (_ & X & _). congruence. }
    inversion S; subst; clear S.
    unfold loop_resumed, tf_dispose, presentFrame. cbn -[remove].
    destruct (rafId a) as [[|p|p]|] eqn:R, (mounted a) eqn:M;
      cbn -[remove]; rewrite ?F, ?R, ?M;
      (split; [|split; [|split]]); simpl; try lia; auto;
      try discriminate;
      try (intros _ Q; inversion Q; lia);
      try (intros Q; exfalso; apply (Hm Q); reflexivity);
      try (intros r [<-|[]]; reflexivity);
      try (intros r []).
  - destruct (awaiting a) as [|w rest] eqn:A; [discriminate|].
    inversion S; subst; clear S. simpl. auto.
  - destruct (mounted a) eqn:M; [|discriminate]. inversion S; subst; clear S.
    specialize (Hm eq_refl). unfold cleanup. simpl.
    destruct (rafId a) as [id|] eqn:R; simpl.
    + destruct (Z.eqb_spec id 0) as [->|Hz]; [congruence|]. simpl.
      split; [|split; [exact Hn|split; [discriminate|]]].
      * intros r H. apply filter_In in H. destruct H as [H N].
        apply Hr in H. inversion H; subst.
        rewrite Z.eqb_refl in N. discriminate.
      * intros _. apply Hc. discriminate.
    + rewrite R. split; [exact Hr|]. split; [exact Hn|].
      split; [discriminate|]. intro Q. now contradiction Q.
Qed.

Lemma loopActivity_snoc (l : list Action) (act : Action) :
  loopActivity (l ++ [act])
  = (loopActivity l + if isLoopActivity act then 1 else 0)%nat.
Proof.
  unfold loopActivity. rewrite filter_app, length_app. simpl.
  destruct (isLoopActivity act); reflexivity.
Qed.

Lemma cancelled_step (a : App) (e : Event) (a' : App) :
  cancelled a -> step a e = Some a' ->
  cancelled a' /\ loopActivity (log a') = loopActivity (log a).
Proof.
  intros (Hr & Hf & Hc & Hm) S.
  destruct a as [st rid mo ds cs nt lv nf fr aw lg]; simpl in *; subst.
  destruct e as [o| |m| |hasFrame now|hasFrame now|ps now| |]; simpl in S;
    try discriminate.
  - inversion S; subst. repeat split.
  - destruct (tfReady st); inversion S; subst. repeat split.
  - destruct (tfReady st && negb ds); inversion S; subst.
    unfold cancelled; simpl. rewrite loopActivity_snoc. simpl.
    repeat split; lia.
  - destruct (tfReady st && negb ds); inversion S; subst. repeat split.
  - destruct aw as [|w rest]; [discriminate|]. inversion S; subst.
    unfold loop_resumed, tf_dispose, presentFrame, cancelled. cbn -[remove loopActivity].
    rewrite loopActivity_snoc. simpl. repeat split; lia.
  - destruct aw as [|w rest]; [discriminate|]. inversion S; subst.
    unfold cancelled; simpl. rewrite loopActivity_snoc. simpl.
    repeat split; lia.
Qed.

Lemma cancelled_run (evs : list Event) (a a' : App) :
  cancelled a -> run a evs = Some a' ->
  cancelled a' /\ loopActivity (log a') = loopActivity (log a).
Proof.
  revert a. induction evs as [|e evs IH]; simpl; intros a Hc R.
  - inversion R; subst. auto.
  - destruct (step a e) as [a1|] eqn:S; [|discriminate].
    destruct (cancelled_step a e a1 Hc S) as (Hc1 & E1).
    destruct (IH a1 Hc1 R) as (Hc2 & E2). split; [exact Hc2 | congruence].
Qed.

(** X1. The unmount cleanup stops the loop once a frame has been requested:
    when [rafId.current] is not null at the unmount, no call of [loop]
    begins afterwards, [estimatePoses] is not called, no frame is presented
    and no animation frame stays requested. *)
Theorem cancel_after_first_frame (evs evs' : list Event) (a a1 a2 : App) :
  run initial evs = Some a ->
  rafId a <> None ->
  step a Unmount = Some a1 ->
  run a1 evs' = Some a2 ->
  loopActivity (log a2) = loopActivity (log a) /\
  frameRequests a2 = [] /\ rafId a2 = Some 0.
Proof.
  intros R Hn S R'.
  assert (T : handleTracked a)
    by (eapply (run_invariant handleTracked handleTracked_step);
        [apply handleTracked_initial | exact R]).
  destruct T as (_ & Hr & _ & Hm & Hc).
  simpl in S. destruct (mounted a) eqn:M; [|discriminate].
  specialize (Hm eq_refl). specialize (Hc Hn).
  assert (C1 : cancelled a1 /\ loopActivity (log a1) = loopActivity (log a)).
  { inversion S; subst; clear S. unfold cleanup. simpl.
    destruct (rafId a) as [id|] eqn:Rf; [|congruence]. simpl.
    destruct (Z.eqb_spec id 0) as [->|Hz]; [congruence|]. simpl.
    unfold cancelled; simpl. rewrite loopActivity_snoc. simpl.
    repeat split; auto; try lia.
    destruct (filter _ (frameRequests a)) as [|r l] eqn:F; [reflexivity|].
    assert (H : In r (filter (fun r0 : Z * option PoseDetector =>
                                negb (Z.eqb (fst r0) id)) (frameRequests a)))
      by (rewrite F; left; reflexivity).
    apply filter_In in H. destruct H as [H N].
    apply Hr in H. inversion H; subst. rewrite Z.eqb_refl in N. discriminate. }
  destruct C1 as (C1 & E1).
  destruct (cancelled_run evs' a1 a2 C1 R') as ((Hr2 & Hf2 & _) & E2).
  repeat split; auto. congruence.
Qed.

(** X2. While the component is mounted, an estimation that resolves ends its
    frame in full: the tensor is disposed, the frame is presented, one
    animation frame is requested for the next call of [loop] and
    [rafId.current] is its id. *)
Theorem mounted_frame_completes (evs : list Event) (a a' : App)
    (ps : list Pose.t) (now : Z) :
  run initial evs = Some a ->
  mounted a = true ->
  step a (PosesEstimated ps now) = Some a' ->
  exists w,
    awaiting a = [w] /\
    log a' = log a ++ [TensorDisposed (imageTensor w); FramePresented] /\
    frameRequests a' = [(nextFrame a, Some (detector w))] /\
    rafId a' = Some (nextFrame a) /\
    live a' = [] /\ awaiting a' = [] /\
    poses (state a') = Some ps.
Proof.
  intros R M S.
  assert (T : handleTracked a)
    by (eapply (run_invariant handleTracked handleTracked_step);
        [apply handleTracked_initial | exact R]).
  destruct T as ((_ & Hlen & Haw) & _ & _ & Hm & _).
  specialize (Hm M). simpl in S.
  destruct (awaiting a) as [|w rest] eqn:A; [discriminate|].
  destruct (Haw w rest eq_refl) as (-> & L).
  assert (F : frameRequests a = []).
  { rewrite L in Hlen. simpl in Hlen.
    destruct (frameRequests a); simpl in *; [auto | lia]. }
  exists w. split; [reflexivity|].
  inversion S; subst; clear S.
  unfold loop_resumed, tf_dispose, presentFrame. cbn -[remove].
  rewrite L, remove_single, M.
  destruct (rafId a) as [[|p|p]|] eqn:Rf; try congruence; cbn;
    rewrite F, <- app_assoc; repeat split.
Qed.

Lemma acquisitions_snoc (t : Tensor) (l : list Action) (act : Action) :
  acquisitions t (l ++ [act])
  = (acquisitions t l + if isAcquire t act then 1 else 0)%nat.
Proof.
  unfold acquisitions. rewrite filter_app, length_app. simpl.
  destruct (isAcquire t act); reflexivity.
Qed.

Lemma accounted_initial : accounted initial.
Proof. intro t. unfold acquisitions, disposals. simpl. repeat split; lia. Qed.

(** Recording an action that neither acquires nor disposes. *)
Lemma accounted_record (act : Action) (a : App) :
  accounted a ->
  (forall t, isAcquire t act = false) ->
  (forall t, isDispose t act = false) ->
  accounted (record act a).
Proof.
  intros H Ha Hd t. destruct (H t) as (E & L & N). simpl.
  rewrite acquisitions_snoc, disposals_snoc, Ha, Hd. repeat split; lia.
Qed.

(** A state that differs in neither history nor tensors. *)
Lemma accounted_same (a a' : App) :
  accounted a ->
  log a' = log a -> live a' = live a -> nextTensor a' = nextTensor a ->
  accounted a'.
Proof.
  intros H El Ev En t. rewrite El, Ev, En. apply H.
Qed.

Lemma accounted_next (hasFrame : bool) (a : App) :
  accounted a -> accounted (snd (images_next hasFrame a)).
Proof.
  intros H. unfold images_next. destruct hasFrame; [|exact H].
  intro t. destruct (H t) as (E & L & N). simpl.
  rewrite acquisitions_snoc, disposals_snoc. simpl.
  destruct (Nat.eq_dec (nextTensor a) t) as [<-|Hne].
  - rewrite Nat.eqb_refl. specialize (N (Nat.le_refl _)).
    repeat split; lia.
  - assert (B : Nat.eqb t (nextTensor a) = false)
      by (apply Nat.eqb_neq; congruence).
    rewrite B. repeat split; lia.
Qed.

Lemma accounted_loop (m : option PoseDetector) (hasFrame : bool) (now : Z)
    (a : App) :
  accounted a -> accounted (loop m hasFrame now a).
Proof.
  intro H. unfold loop.
  assert (H1 : accounted (record LoopEntered a))
    by (apply accounted_record; auto).
  apply (accounted_next hasFrame) in H1.
  destruct (images_next hasFrame (record LoopEntered a)) as [tensor a1].
  simpl in H1.
  destruct m as [md|], tensor as [t|]; apply accounted_record; auto.
Qed.

Lemma accounted_resumed (w : Awaiting) (ps : list Pose.t) (now : Z)
    (a : App) :
  accounted a -> live a = [imageTensor w] ->
  accounted (loop_resumed w ps now a).
Proof.
  intros H L. unfold loop_resumed.
  set (a1 := tf_dispose (imageTensor w)
               (setPoses ps (setFps (Math_floor_1000_over (now - startTs w)) a))).
  assert (H1 : accounted a1).
  { intro t. destruct (H t) as (E & Lq & N). unfold a1, tf_dispose.
    cbn -[remove disposals acquisitions]. rewrite L, remove_single.
    rewrite acquisitions_snoc, disposals_snoc. simpl.
    rewrite L in E. simpl in E.
    destruct (Nat.eq_dec (imageTensor w) t) as [<-|Hne].
    - rewrite Nat.eqb_refl. repeat split; try lia.
    - assert (B : Nat.eqb t (imageTensor w) = false)
        by (apply Nat.eqb_neq; congruence).
      rewrite B. repeat split; lia. }
  clearbody a1. unfold presentFrame.
  destruct (rafId a1) as [[|p|p]|], (mounted a1); simpl; auto;
    try (apply accounted_record; auto);
    (eapply accounted_same;
     [apply (accounted_record FramePresented); eauto | | |]; reflexivity).
Qed.

Lemma accounted_step (a : App) (e : Event) (a' : App) :
  serial a -> accounted a -> step a e = Some a' -> accounted a'.
Proof.
  intros (_ & _ & Haw) H S.
  destruct e as [o| |m| |hasFrame now|hasFrame now|ps now| |]; simpl in S.
  - inversion S; subst. eapply accounted_same; eauto.
  - destruct (tfReady (state a)); inversion S; subst.
    eapply accounted_same; eauto.
  - destruct (tfReady (state a) && negb (detectorSettled a));
      inversion S; subst.
    apply accounted_record; auto; try (eapply accounted_same; eauto).
  - destruct (tfReady (state a) && negb (detectorSettled a));
      inversion S; subst. eapply accounted_same; eauto.
  - destruct (mounted a && tfReady (state a) && negb (cameraStarted a));
      inversion S; subst. apply accounted_loop.
    eapply accounted_same; eauto.
  - destruct (frameRequests a) as [|[id m] rest]; [discriminate|].
    inversion S; subst. apply accounted_loop. eapply accounted_same; eauto.
  - destruct (awaiting a) as [|w rest] eqn:A; [discriminate|].
    destruct (Haw w rest eq_refl) as (-> & L).
    inversion S; subst. apply accounted_resumed; [|exact L].
    eapply accounted_same; eauto.
  - destruct (awaiting a) as [|w rest]; [discriminate|].
    inversion S; subst.
    apply accounted_record; auto; try (eapply accounted_same; eauto).
  - destruct (mounted a); [|discriminate]. inversion S; subst.
    unfold cleanup.
    assert (H1 : accounted (record CleanupRan (with_mounted false a))).
    { apply accounted_record; auto; try (eapply accounted_same; eauto). }
    destruct (rafId (record CleanupRan (with_mounted false a))) as [id|];
      [|exact H1].
    destruct (negb (id =? 0)); [|exact H1].
    eapply accounted_same; eauto.
Qed.

Lemma serial_accounted_run (evs : list Event) (a : App) :
  run initial evs = Some a -> serial a /\ accounted a.
Proof.
  apply (run_invariant (fun a => serial a /\ accounted a)).
  - intros a0 e a' [Hs Ha] S. split.
    + eapply serial_step; eassumption.
    + eapply accounted_step; eassumption.
  - split; [apply serial_initial | apply accounted_initial].
Qed.

(** X4. In every execution a tensor is acquired at most once and disposed at
    most once, never disposed without having been acquired, and held
    exactly when it has been acquired and not yet disposed. *)
Theorem tensors_accounted (evs : list Event) (a : App) (t : Tensor) :
  run initial evs = Some a ->
  (disposals t (log a) <= acquisitions t (log a) <= 1)%nat /\
  (In t (live a) <->
   acquisitions t (log a) = 1%nat /\ disposals t (log a) = 0%nat).
Proof.
  intro R. destruct (serial_accounted_run evs a R) as [(_ & Hlen & _) H].
  destruct (H t) as (E & L & _).
  split; [lia|].
  rewrite (count_occ_In Nat.eq_dec). 
  assert (C : (count_occ Nat.eq_dec (live a) t <= 1)%nat).
  { destruct (live a) as [|u [|v l]]; simpl in *; try lia.
    all: try (destruct (Nat.eq_dec u t); lia). }
  lia.
Qed.

Lemma loop_log (m : option PoseDetector) (hasFrame : bool) (now : Z)
    (a : App) :
  log (loop m hasFrame now a) = log a ++ loopEmits m hasFrame (nextTensor a).
Proof.
  unfold loop, images_next, loopEmits.
  destruct hasFrame, m; simpl; repeat rewrite <- app_assoc; reflexivity.
Qed.

Lemma resumed_log (w : Awaiting) (ps : list Pose.t) (now : Z) (a : App) :
  log (loop_resumed w ps now a)
  = log a ++ TensorDisposed (imageTensor w) ::
             match rafId a with
             | Some 0 => []
             | _ => if mounted a then [FramePresented]
                    else [LoopThrew "updatePreview"]
             end.
Proof.
  unfold loop_resumed, tf_dispose, presentFrame. cbn -[remove].
  destruct (rafId a) as [[|p|p]|], (mounted a); cbn -[remove];
    repeat rewrite <- app_assoc; reflexivity.
Qed.

Lemma step_emits (a : App) (e : Event) (a' : App) :
  step a e = Some a' -> log a' = log a ++ emitted a e.
Proof.
  intro S.
  destruct e as [o| |m| |hasFrame now|hasFrame now|ps now| |]; simpl in S.
  - inversion S; subst. simpl. now rewrite app_nil_r.
  - destruct (tfReady (state a)); inversion S; subst.
    simpl. now rewrite app_nil_r.
  - destruct (tfReady (state a) && negb (detectorSettled a));
      inversion S; subst. reflexivity.
  - destruct (tfReady (state a) && negb (detectorSettled a));
      inversion S; subst. simpl. now rewrite app_nil_r.
  - destruct (mounted a && tfReady (state a) && negb (cameraStarted a));
      inversion S; subst. unfold handleCameraStream. now rewrite loop_log.
  - simpl. destruct (frameRequests a) as [|[id m] rest]; [discriminate|].
    inversion S; subst. now rewrite loop_log.
  - simpl. destruct (awaiting a) as [|w rest]; [discriminate|].
    inversion S; subst. now rewrite resumed_log.
  - destruct (awaiting a) as [|w rest]; [discriminate|].
    inversion S; subst. reflexivity.
  - destruct (mounted a); [|discriminate]. inversion S; subst.
    unfold cleanup. simpl.
    destruct (rafId a) as [id|]; [destruct (negb (id =? 0))|]; reflexivity.
Qed.

Lemma onHeldTensor_snoc (l : list Action) (act : Action) :
  onHeldTensor l ->
  (forall m t, act = EstimateCalled m t ->
     acquisitions t l = 1%nat /\ disposals t l = 0%nat) ->
  onHeldTensor (l ++ [act]).
Proof.
  intros L Hact pre m t post E.
  symmetry in E. apply snoc_split in E.
  destruct E as [(_ & -> & E)|(post' & _ & E)].
  - symmetry in E. eauto.
  - eapply L; eauto.
Qed.

Lemma onHeldTensor_step (a : App) (e : Event) (a' : App) :
  accounted a -> onHeldTensor (log a) -> step a e = Some a' ->
  onHeldTensor (log a').
Proof.
  intros Ha Hl S. rewrite (step_emits a e a' S).
  assert (Q : forall act, (forall m t, act <> EstimateCalled m t) ->
              forall l, onHeldTensor l -> onHeldTensor (l ++ [act])).
  { intros act N l H. apply onHeldTensor_snoc; [exact H|].
    intros m t E. now apply N in E. }
  assert (Lp : forall m hasFrame,
             onHeldTensor (log a ++ loopEmits m hasFrame (nextTensor a))).
  { intros m hasFrame. unfold loopEmits.
    destruct (Ha (nextTensor a)) as (E & Lq & N).
    specialize (N (Nat.le_refl _)).
    destruct hasFrame; [destruct m as [md|]|].
    - change (log a ++ [LoopEntered; TensorAcquired (nextTensor a);
                        EstimateCalled md (nextTensor a)])
        with (log a ++ [LoopEntered] ++ [TensorAcquired (nextTensor a)]
                    ++ [EstimateCalled md (nextTensor a)]).
      rewrite 2 app_assoc. apply onHeldTensor_snoc.
      + apply Q; [discriminate|]. apply Q; [discriminate|]. exact Hl.
      + intros m t Eq. inversion Eq; subst.
        rewrite acquisitions_snoc, acquisitions_snoc.
        rewrite disposals_snoc, disposals_snoc. simpl.
        rewrite Nat.eqb_refl. lia.
    - change (log a ++ [LoopEntered; TensorAcquired (nextTensor a);
                        LoopThrew "no model"])
        with (log a ++ [LoopEntered] ++ [TensorAcquired (nextTensor a)]
                    ++ [LoopThrew "no model"]).
      rewrite 2 app_assoc.
      apply Q; [discriminate|]. apply Q; [discriminate|].
      apply Q; [discriminate|]. exact Hl.
    - change (log a ++ [LoopEntered; LoopThrew "no model"])
        with (log a ++ [LoopEntered] ++ [LoopThrew "no model"]).
      rewrite app_assoc.
      apply Q; [discriminate|]. apply Q; [discriminate|]. exact Hl. }
  destruct e as [o| |m| |hasFrame now|hasFrame now|ps now| |]; simpl;
    rewrite ?app_nil_r; auto; try (apply Q; [discriminate | exact Hl]).
  - destruct (frameRequests a) as [|[id m] rest];
      [now rewrite app_nil_r | apply Lp].
  - destruct (awaiting a) as [|w rest]; [now rewrite app_nil_r|].
    assert (Q2 : forall act, (forall m t, act <> EstimateCalled m t) ->
                 onHeldTensor
                   (log a ++ [TensorDisposed (imageTensor w); act])).
    { intros act N.
      change (log a ++ [TensorDisposed (imageTensor w); act])
        with (log a ++ [TensorDisposed (imageTensor w)] ++ [act]).
      rewrite app_assoc. apply Q; [exact N|].
      apply Q; [discriminate | exact Hl]. }
    destruct (rafId a) as [[|p|p]|], (mounted a);
      try (apply Q; [discriminate | exact Hl]); apply Q2; discriminate.
Qed.

(** X5. In every execution [estimatePoses] is called only on a tensor that has
    been acquired and has not been disposed: no tensor is used after its
    release. *)
Theorem estimate_on_held_tensor (evs : list Event) (a : App)
    (pre post : list Action) (m : PoseDetector) (t : Tensor) :
  run initial evs = Some a ->
  log a = pre ++ EstimateCalled m t :: post ->
  In (TensorAcquired t) pre /\ ~ In (TensorDisposed t) pre.
Proof.
  intros R E.
  assert (I : serial a /\ accounted a /\ onHeldTensor (log a)).
  { revert R.
    apply (run_invariant
             (fun a => serial a /\ accounted a /\ onHeldTensor (log a))).
    - intros a0 e a' (Hs & Ha & Hl) S. split; [|split].
      + eapply serial_step; eassumption.
      + eapply accounted_step; eassumption.
      + eapply onHeldTensor_step; eassumption.
    - split; [apply serial_initial|]. split; [apply accounted_initial|].
      intros p0 m0 t0 q0 E0. destruct p0; discriminate. }
  destruct I as (_ & _ & Hl). destruct (Hl pre m t post E) as [A D].
  split.
  - unfold acquisitions in A.
    destruct (filter (isAcquire t) pre) as [|act l] eqn:F; [discriminate|].
    assert (H : In act (filter (isAcquire t) pre)) by (rewrite F; now left).
    apply filter_In in H. destruct H as [H B].
    destruct act; try discriminate. simpl in B.
    apply Nat.eqb_eq in B. now subst.
  - intro H. unfold disposals in D.
    assert (H' : In (TensorDisposed t) (filter (isDispose t) pre)).
    { apply filter_In. split; [exact H|]. simpl. apply Nat.eqb_refl. }
    destruct (filter (isDispose t) pre); [contradiction | discriminate].
Qed.

Lemma loopOver_quiet (a : App) (e : Event) (a' : App) :
  loopOver a -> step a e = Some a' ->
  loopOver a' /\ live a' = live a /\ loopSteps (log a') = loopSteps (log a).
Proof.
  intros Ho S.
  destruct (loopOver_step a e a' 0%nat Ho S) as (Ho' & L & _ & _).
  split; [exact Ho'|]. split; [exact L|].
  rewrite (step_emits a e a' S).
  destruct Ho as (Hc & Ha & Hf).
  unfold loopSteps. rewrite filter_app, length_app.
  destruct e as [o| |m| |hasFrame now|hasFrame now|ps now| |]; simpl;
    rewrite ?Ha, ?Hf; simpl; try lia.
  - simpl in S. rewrite Hc in S. rewrite andb_false_r in S. discriminate.
  - simpl in S. rewrite Ha in S. discriminate.
Qed.

Lemma throwIsFinal_step (a : App) (e : Event) (a' : App) :
  serial a -> throwIsFinal a -> step a e = Some a' -> throwIsFinal a'.
Proof.
  intros (Hns & Hlen & Haw) Ht S.
  destruct (existsb isThrow (log a)) eqn:T.
  { intros _. apply (loopOver_quiet a e a' (Ht T) S). }
  clear Ht. unfold throwIsFinal. rewrite (step_emits a e a' S).
  rewrite existsb_app, T. simpl.
  assert (Cs : awaiting a <> [] \/ frameRequests a <> [] ->
               cameraStarted a = true).
  { intros H. destruct (cameraStarted a); [reflexivity|].
    destruct (Hns eq_refl) as (_ & A & F). destruct H; congruence. }
  destruct e as [o| |m| |hasFrame now|hasFrame now|ps now| |]; simpl in *;
    try discriminate.
  - destruct (mounted a && tfReady (state a) && negb (cameraStarted a)) eqn:G;
      [|discriminate].
    apply andb_prop in G. destruct G as [_ G]. apply negb_true_iff in G.
    destruct (Hns G) as (_ & A & F).
    inversion S; subst; clear S.
    unfold handleCameraStream, loopOver, loop, images_next, loopEmits.
    simpl. destruct hasFrame, (model (state a)); simpl;
      try discriminate; intros _; rewrite ?A, ?F; auto.
  - destruct (frameRequests a) as [|[id m] rest] eqn:F; [discriminate|].
    simpl in Hlen.
    assert (R0 : rest = []) by (destruct rest; simpl in *; [auto|lia]).
    assert (L0 : live a = []) by (destruct (live a); simpl in *; [auto|lia]).
    assert (A0 : awaiting a = []).
    { destruct (awaiting a) as [|w r]; [auto|].
      destruct (Haw w r eq_refl). congruence. }
    assert (C0 : cameraStarted a = true) by (apply Cs; right; discriminate).
    inversion S; subst; clear S.
    unfold loopOver, loop, images_next, loopEmits.
    destruct hasFrame, (mounted a), m; simpl;
      try discriminate; intros _; rewrite ?A0; auto.
  - destruct (awaiting a) as [|w rest] eqn:A; [discriminate|].
    destruct (Haw w rest eq_refl) as (-> & L).
    assert (F : frameRequests a = []).
    { rewrite L in Hlen. simpl in Hlen.
      destruct (frameRequests a); simpl in *; [auto | lia]. }
    assert (C0 : cameraStarted a = true) by (apply Cs; left; discriminate).
    inversion S; subst; clear S.
    unfold loopOver, loop_resumed, tf_dispose, presentFrame. cbn -[remove].
    destruct (rafId a) as [[|p|p]|], (mounted a); cbn -[remove];
      try discriminate; intros _; rewrite ?F; auto.
  - destruct (awaiting a) as [|w rest] eqn:A; [discriminate|].
    destruct (Haw w rest eq_refl) as (-> & L).
    assert (F : frameRequests a = []).
    { rewrite L in Hlen. simpl in Hlen.
      destruct (frameRequests a); simpl in *; [auto | lia]. }
    assert (C0 : cameraStarted a = true) by (apply Cs; left; discriminate).
    inversion S; subst; clear S. intros _. unfold loopOver. simpl. auto.
Qed.

Lemma loopOver_quiet_run (evs : list Event) (a a' : App) :
  loopOver a -> run a evs = Some a' ->
  loopOver a' /\ live a' = live a /\ loopSteps (log a') = loopSteps (log a).
Proof.
  revert a. induction evs as [|e evs IH]; simpl; intros a Ho R.
  - inversion R; subst. auto.
  - destruct (step a e) as [a1|] eqn:S; [|discriminate].
    destruct (loopOver_quiet a e a1 Ho S) as (Ho1 & E1 & E2).
    destruct (IH a1 Ho1 R) as (Ho2 & F1 & F2).
    split; [exact Ho2|]. split; congruence.
Qed.

(** X6. A call of [loop] that throws ends the loop for good: from then on, in
    every continuation, no call of [loop] is suspended or requested, the
    loop appends nothing to the history (no call, no estimation, no
    disposal, no presentation), and the tensors held stay held. *)
Theorem throw_ends_the_loop (evs evs' : list Event) (a a' : App)
    (msg : string) :
  run initial evs = Some a ->
  In (LoopThrew msg) (log a) ->
  run a evs' = Some a' ->
  awaiting a' = [] /\ frameRequests a' = [] /\
  loopSteps (log a') = loopSteps (log a) /\ live a' = live a.
Proof.
  intros R T R'.
  assert (I : serial a /\ throwIsFinal a).
  { revert R. apply (run_invariant (fun a => serial a /\ throwIsFinal a)).
    - intros a0 e a1 (Hs & Ht) S. split.
      + eapply serial_step; eassumption.
      + eapply throwIsFinal_step; eassumption.
    - split; [apply serial_initial | discriminate]. }
  destruct I as (_ & Ht).
  assert (Ho : loopOver a).
  { apply Ht. apply existsb_exists. exists (LoopThrew msg). auto. }
  destruct (loopOver_quiet_run evs' a a' Ho R') as ((_ & A & F) & L & E).
  auto.
Qed.

Lemma loop_model (m : option PoseDetector) (hasFrame : bool) (now : Z)
    (a : App) :
  model (state (loop m hasFrame now a)) = model (state a) /\
  detectorSettled (loop m hasFrame now a) = detectorSettled a.
Proof.
  unfold loop, images_next. destruct hasFrame, m; simpl; auto.
Qed.

Lemma resumed_model (w : Awaiting) (ps : list Pose.t) (now : Z) (a : App) :
  model (state (loop_resumed w ps now a)) = model (state a) /\
  detectorSettled (loop_resumed w ps now a) = detectorSettled a.
Proof.
  unfold loop_resumed, tf_dispose, presentFrame. cbn -[remove].
  destruct (rafId a) as [[|p|p]|], (mounted a); cbn -[remove]; auto.
Qed.

(** Only the creation of the detector touches [model]. *)
Lemma step_model (a : App) (e : Event) (a' : App) :
  step a e = Some a' ->
  match e with
  | DetectorCreated m =>
      detectorSettled a = false /\ model (state a') = Some m /\
      detectorSettled a' = true
  | DetectorFailed =>
      detectorSettled a = false /\ model (state a') = model (state a) /\
      detectorSettled a' = true
  | _ =>
      model (state a') = model (state a) /\
      detectorSettled a' = detectorSettled a
  end.
Proof.
  intro S.
  destruct e as [o| |m| |hasFrame now|hasFrame now|ps now| |]; simpl in S.
  - inversion S; subst. auto.
  - destruct (tfReady (state a)); inversion S; subst. auto.
  - destruct (tfReady (state a)); simpl in S; [|discriminate].
    destruct (detectorSettled a); simpl in S; [discriminate|].
    inversion S; subst. auto.
  - destruct (tfReady (state a)); simpl in S; [|discriminate].
    destruct (detectorSettled a); simpl in S; [discriminate|].
    inversion S; subst. auto.
  - destruct (mounted a && tfReady (state a) && negb (cameraStarted a));
      inversion S; subst.
    exact (loop_model _ hasFrame now (with_cameraStarted true a)).
  - destruct (frameRequests a) as [|[id m] rest]; [discriminate|].
    inversion S; subst.
    exact (loop_model m (hasFrame && mounted a) now
             (with_frames (nextFrame a) rest a)).
  - destruct (awaiting a) as [|w rest]; [discriminate|].
    inversion S; subst.
    exact (resumed_model w ps now (with_awaiting rest a)).
  - destruct (awaiting a) as [|w rest]; [discriminate|].
    inversion S; subst. auto.
  - destruct (mounted a); [|discriminate]. inversion S; subst.
    unfold cleanup. simpl.
    destruct (rafId a) as [id|]; [destruct (negb (id =? 0))|]; auto.
Qed.

Lemma emitted_detector (a : App) (e : Event) (m : PoseDetector) :
  In (DetectorReady m) (emitted a e) -> e = DetectorCreated m.
Proof.
  destruct e as [o| |m'| |hasFrame now|hasFrame now|ps now| |]; simpl;
    try contradiction.
  - intros [E|[]]. now inversion E.
  - unfold loopEmits. destruct hasFrame, (model (state a)); simpl;
      intuition discriminate.
  - destruct (frameRequests a) as [|[id m0] rest]; [contradiction|].
    unfold loopEmits.
    destruct hasFrame, (mounted a), m0; simpl; intuition discriminate.
  - destruct (awaiting a) as [|w rest]; [contradiction|].
    destruct (rafId a) as [[|p|p]|], (mounted a); simpl;
      intuition discriminate.
  - intuition discriminate.
  - intuition discriminate.
Qed.

Lemma oneDetector_step (a : App) (e : Event) (a' : App) :
  oneDetector a -> step a e = Some a' -> oneDetector a'.
Proof.
  intros H S m Hin. rewrite (step_emits a e a' S) in Hin.
  pose proof (step_model a e a' S) as M.
  apply in_app_or in Hin. destruct Hin as [Hin|Hin].
  - destruct (H m Hin) as [E1 E2].
    destruct e; try (destruct M as [-> ->]; auto);
      destruct M as (F & _); congruence.
  - apply emitted_detector in Hin. subst e. tauto.
Qed.

(** X7. In every execution all calls of [estimatePoses] are made on one and
    the same detector, the one [model] holds. *)
Theorem single_detector (evs : list Event) (a : App)
    (m m' : PoseDetector) (t t' : Tensor) :
  run initial evs = Some a ->
  In (EstimateCalled m t) (log a) ->
  In (EstimateCalled m' t') (log a) ->
  model (state a) = Some m /\ m' = m.
Proof.
  intros R H H'.
  assert (I : detectorsKnown a /\ oneDetector a).
  { revert R. apply (run_invariant (fun a => detectorsKnown a /\ oneDetector a)).
    - intros a0 e a1 (Hk & Ho) S. split.
      + eapply detectorsKnown_step; eassumption.
      + eapply oneDetector_step; eassumption.
    - split; [apply detectorsKnown_initial|]. intros m0 [].  }
  destruct I as ((L & _) & Ho).
  assert (Q : forall d u, In (EstimateCalled d u) (log a) ->
                          model (state a) = Some d).
  { intros d u Hd. apply in_split in Hd. destruct Hd as (pre & post & E).
    apply (Ho d). rewrite E. apply in_or_app. left. eapply L. exact E. }
  pose proof (Q m t H) as E1. pose proof (Q m' t' H') as E2.
  split; congruence.
Qed.

Lemma withoutDetector_step (a : App) (e : Event) (a' : App) :
  withoutDetector a -> step a e = Some a' -> withoutDetector a'.
Proof.
  intros (Hs & Hn) S. pose proof (step_model a e a' S) as M. split.
  - destruct e; try (destruct M as [_ ->]; exact Hs);
      destruct M as (F & _); congruence.
  - intros m Hin. rewrite (step_emits a e a' S) in Hin.
    apply in_app_or in Hin. destruct Hin as [Hin|Hin]; [now apply Hn in Hin|].
    apply emitted_detector in Hin. subst e.
    destruct M as (F & _). congruence.
Qed.

(** X8. When the creation of the detector fails, [model] stays undefined and
    [estimatePoses] is never called, whatever happens before or after the
    failure. *)
Theorem failed_detector_never_estimates (pre post : list Event) (a : App) :
  run initial (pre ++ DetectorFailed :: post) = Some a ->
  model (state a) = None /\ estimates (log a) = 0%nat /\ awaiting a = [].
Proof.
  intro R. rewrite run_app in R.
  destruct (run initial pre) as [a0|] eqn:R0; [|discriminate].
  cbn [run] in R. destruct (step a0 DetectorFailed) as [a1|] eqn:S;
    [|discriminate].
  assert (O0 : oneDetector a0).
  { revert R0. apply (run_invariant oneDetector oneDetector_step).
    intros m0 []. }
  assert (W1 : withoutDetector a1).
  { pose proof (step_model a0 DetectorFailed a1 S) as (F & _ & T).
    split; [exact T|]. intros m Hin.
    rewrite (step_emits a0 DetectorFailed a1 S) in Hin. simpl in Hin.
    rewrite app_nil_r in Hin. destruct (O0 m Hin) as [_ E]. congruence. }
  assert (W : withoutDetector a).
  { revert R. apply (run_invariant withoutDetector withoutDetector_step).
    exact W1. }
  assert (K : detectorsKnown a).
  { assert (K0 : detectorsKnown a0).
    { revert R0. apply (run_invariant detectorsKnown detectorsKnown_step).
      apply detectorsKnown_initial. }
    revert R. apply (run_invariant detectorsKnown detectorsKnown_step).
    eapply detectorsKnown_step; eassumption. }
  destruct W as (_ & Hn). destruct K as (L & Hm & _ & Hw).
  split; [|split].
  - destruct (model (state a)) as [m|] eqn:M; [|reflexivity].
    exfalso. apply (Hn m). now apply Hm.
  - unfold estimates.
    destruct (filter isEstimate (log a)) as [|act l] eqn:F; [reflexivity|].
    exfalso.
    assert (H : In act (filter isEstimate (log a))) by (rewrite F; now left).
    apply filter_In in H. destruct H as [H B].
    destruct act; try discriminate.
    apply in_split in H. destruct H as (p & q & E).
    apply (Hn m). rewrite E. apply in_or_app. left. eapply L. exact E.
  - destruct (awaiting a) as [|w rest] eqn:A; [reflexivity|].
    exfalso. apply (Hn (detector w)). apply Hw. now left.
Qed.

(** ** After the unmount *)

Lemma afterCleanup_none (l : list Action) :
  ~ In CleanupRan l -> afterCleanup l = [].
Proof.
  induction l as [|x l IH]; [reflexivity|]. intro H.
  destruct x; simpl; try (apply IH; intro; apply H; now right).
  exfalso. apply H. now left.
Qed.

Lemma afterCleanup_fresh (l l' : list Action) :
  ~ In CleanupRan l -> afterCleanup (l ++ CleanupRan :: l') = l'.
Proof.
  induction l as [|x l IH]; [reflexivity|]. intro H.
  destruct x; simpl; try (apply IH; intro; apply H; now right).
  exfalso. apply H. now left.
Qed.

Lemma loopActivity_app (l l' : list Action) :
  loopActivity (l ++ l') = (loopActivity l + loopActivity l')%nat.
Proof. unfold loopActivity. now rewrite filter_app, length_app. Qed.

Lemma estimates_app (l l' : list Action) :
  estimates (l ++ l') = (estimates l + estimates l')%nat.
Proof. unfold estimates. now rewrite filter_app, length_app. Qed.

Lemma estimates_le_activity (l : list Action) :
  (estimates l <= loopActivity l)%nat.
Proof.
  unfold estimates, loopActivity.
  induction l as [|x l IH]; [reflexivity|].
  destruct x; simpl; lia.
Qed.

Lemma emitted_cleanup (a : App) (e : Event) :
  In CleanupRan (emitted a e) -> e = Unmount.
Proof.
  destruct e as [o| |m| |hasFrame now|hasFrame now|ps now| |]; simpl;
    try contradiction; try reflexivity.
  - intuition discriminate.
  - unfold loopEmits. destruct hasFrame, (model (state a)); simpl;
      intuition discriminate.
  - destruct (frameRequests a) as [|[id m0] rest]; [contradiction|].
    unfold loopEmits.
    destruct hasFrame, (mounted a), m0; simpl; intuition discriminate.
  - destruct (awaiting a) as [|w rest]; [contradiction|].
    destruct (rafId a) as [[|p|p]|], (mounted a); simpl;
      intuition discriminate.
  - intuition discriminate.
Qed.

Lemma resumed_mounted (w : Awaiting) (ps : list Pose.t) (now : Z) (a : App) :
  mounted (loop_resumed w ps now a) = mounted a.
Proof.
  destruct a as [st rid mo ds cs nt lv nf fr aw lg].
  unfold loop_resumed, tf_dispose, presentFrame. cbn -[remove].
  destruct rid as [[|p|p]|], mo; reflexivity.
Qed.

Lemma step_mounted (a : App) (e : Event) (a' : App) :
  step a e = Some a' ->
  mounted a' = match e with Unmount => false | _ => mounted a end.
Proof.
  intro S.
  destruct e as [o| |m| |hasFrame now|hasFrame now|ps now| |]; simpl in S.
  - inversion S; subst. reflexivity.
  - destruct (tfReady (state a)); inversion S; subst. reflexivity.
  - destruct (tfReady (state a) && negb (detectorSettled a));
      inversion S; subst. reflexivity.
  - destruct (tfReady (state a) && negb (detectorSettled a));
      inversion S; subst. reflexivity.
  - destruct (mounted a && tfReady (state a) && negb (cameraStarted a));
      inversion S; subst. unfold handleCameraStream.
    destruct (loop_frames (model (state (with_cameraStarted true a)))
                hasFrame now (with_cameraStarted true a))
      as (_ & _ & _ & -> & _). reflexivity.
  - destruct (frameRequests a) as [|[id m] rest]; [discriminate|].
    inversion S; subst.
    destruct (loop_frames m (hasFrame && mounted a) now
                (with_frames (nextFrame a) rest a))
      as (_ & _ & _ & -> & _). reflexivity.
  - destruct (awaiting a) as [|w rest]; [discriminate|].
    inversion S; subst. now rewrite resumed_mounted.
  - destruct (awaiting a) as [|w rest]; [discriminate|].
    inversion S; subst. reflexivity.
  - destruct (mounted a); [|discriminate]. inversion S; subst.
    unfold cleanup. simpl.
    destruct (rafId a) as [id|]; [destruct (negb (id =? 0))|]; reflexivity.
Qed.

(** Once unmounted, with nothing requested: no event requests a call of
    [loop], and none is an activity of the loop. *)
Lemma unmounted_step (a : App) (e : Event) (a' : App) :
  mounted a = false -> frameRequests a = [] -> step a e = Some a' ->
  frameRequests a' = [] /\ loopActivity (emitted a e) = 0%nat.
Proof.
  intros M F S.
  destruct a as [st rid mo ds cs nt lv nf fr aw lg]; simpl in *; subst.
  destruct e as [o| |m| |hasFrame now|hasFrame now|ps now| |]; simpl in S;
    try discriminate.
  - inversion S; subst. split; reflexivity.
  - destruct (tfReady st); inversion S; subst. split; reflexivity.
  - destruct (tfReady st && negb ds); inversion S; subst. split; reflexivity.
  - destruct (tfReady st && negb ds); inversion S; subst. split; reflexivity.
  - destruct aw as [|w rest]; [discriminate|]. inversion S; subst.
    unfold loop_resumed, tf_dispose, presentFrame. cbn -[remove].
    destruct rid as [[|p|p]|]; cbn -[remove]; split; reflexivity.
  - destruct aw as [|w rest]; [discriminate|]. inversion S; subst.
    split; reflexivity.
Qed.

(** The cleanup leaves no call of [loop] requested. *)
Lemma cleanup_cancels (a : App) :
  handleTracked a -> mounted a = true ->
  frameRequests (cleanup (with_mounted false a)) = [].
Proof.
  intros (_ & Hr & _ & Hm & _) M. specialize (Hm M).
  unfold cleanup. simpl.
  destruct (rafId a) as [id|] eqn:R; simpl.
  - destruct (Z.eqb_spec id 0) as [->|Hz]; [congruence|]. simpl.
    destruct (filter _ (frameRequests a)) as [|r l] eqn:F; [reflexivity|].
    assert (H : In r (filter (fun r0 : Z * option PoseDetector =>
                                negb (Z.eqb (fst r0) id)) (frameRequests a)))
      by (rewrite F; left; reflexivity).
    apply filter_In in H. destruct H as [H N].
    apply Hr in H. inversion H; subst. rewrite Z.eqb_refl in N. discriminate.
  - destruct (frameRequests a) as [|r l]; [reflexivity|].
    specialize (Hr r (or_introl eq_refl)). discriminate.
Qed.

Lemma quietOnceUnmounted_step (a : App) (e : Event) (a' : App) :
  handleTracked a -> quietOnceUnmounted a -> step a e = Some a' ->
  quietOnceUnmounted a'.
Proof.
  intros T (Qm & Qu) S.
  pose proof (step_emits a e a' S) as L.
  pose proof (step_mounted a e a' S) as M'.
  destruct (mounted a) eqn:M.
  - specialize (Qm eq_refl).
    assert (U : e = Unmount \/ e <> Unmount)
      by (destruct e; (now left) || (right; discriminate)).
    destruct U as [->|U].
    + split; [congruence|]. intros _.
      simpl in S. rewrite M in S. inversion S; subst a'.
      simpl in L. rewrite L. split; [apply in_or_app; right; now left|].
      split; [now apply cleanup_cancels|].
      now rewrite afterCleanup_fresh.
    + assert (M1 : mounted a' = true) by (destruct e; congruence).
      split; [|congruence]. intros _. rewrite L. intro H.
      apply in_app_or in H. destruct H as [H|H]; [now apply Qm|].
      now apply emitted_cleanup in H.
  - destruct (Qu eq_refl) as (C & F & A).
    destruct (unmounted_step a e a' M F S) as (F' & A').
    assert (M1 : mounted a' = false) by (destruct e; congruence).
    split; [congruence|]. intros _. rewrite L.
    split; [apply in_or_app; now left|]. split; [exact F'|].
    rewrite afterCleanup_app by exact C. rewrite loopActivity_app. lia.
Qed.

Lemma unmount_invariants (evs : list Event) (a : App) :
  run initial evs = Some a -> handleTracked a /\ quietOnceUnmounted a.
Proof.
  apply (run_invariant (fun a => handleTracked a /\ quietOnceUnmounted a)).
  - intros a0 e a1 (T & Q) S. split.
    + eapply handleTracked_step; eassumption.
    + eapply quietOnceUnmounted_step; eassumption.
  - split; [apply handleTracked_initial|].
    split; [intros _ []|discriminate].
Qed.

(** C2. In every execution, whenever the unmount cleanup runs, nothing the
    loop does follows it in the history: [estimatePoses] is not called, no
    call of [loop] begins, no tensor is acquired and no frame is presented;
    and once the component is unmounted no call of [loop] is requested and
    none can begin. *)
Theorem no_iteration_after_unmount (evs : list Event) (a : App) :
  run initial evs = Some a ->
  estimates (afterCleanup (log a)) = 0%nat /\
  loopActivity (afterCleanup (log a)) = 0%nat /\
  (mounted a = false ->
     frameRequests a = [] /\
     forall e, startsIteration e = true -> step a e = None).
Proof.
  intro R. destruct (unmount_invariants evs a R) as (_ & Qm & Qu).
  assert (A : loopActivity (afterCleanup (log a)) = 0%nat).
  { destruct (mounted a) eqn:M.
    - now rewrite afterCleanup_none by (now apply Qm).
    - now apply Qu. }
  pose proof (estimates_le_activity (afterCleanup (log a))) as Le.
  split; [lia|]. split; [exact A|].
  intro M. destruct (Qu M) as (_ & F & _). split; [exact F|].
  intros e He. destruct e; try discriminate; simpl.
  - now rewrite M.
  - now rewrite F.
Qed.

Lemma no_iteration_after_unmount_witness :
  estimates
    (afterCleanup (log (after (earlyUnmount ++ [PosesEstimated [] 50]))))
  = 0%nat /\
  loopActivity
    (afterCleanup (log (after (earlyUnmount ++ [PosesEstimated [] 50]))))
  = 0%nat /\
  (mounted (after (earlyUnmount ++ [PosesEstimated [] 50])) = false ->
     frameRequests (after (earlyUnmount ++ [PosesEstimated [] 50])) = [] /\
     forall e, startsIteration e = true ->
               step (after (earlyUnmount ++ [PosesEstimated [] 50])) e = None).
Proof.
  apply (no_iteration_after_unmount (earlyUnmount ++ [PosesEstimated [] 50])
           (after (earlyUnmount ++ [PosesEstimated [] 50]))).
  vm_compute. reflexivity.
Defined.

(** The unmount during the first estimation: [rafId.current] is still null,
    so the cleanup cancels nothing and leaves it null; the resumed call of
    [loop] stores its results, disposes its tensor, passes the test of
    line 60 and ends at [updatePreview], which throws on the unmounted
    camera, before line 69 requests a frame. *)
Lemma early_unmount_ends_at_updatePreview :
  rafId (after earlyUnmount) = None /\
  afterCleanup (log (after (earlyUnmount ++ [PosesEstimated [] 50])))
  = [TensorDisposed 0; LoopThrew "updatePreview"] /\
  rafId (after (earlyUnmount ++ [PosesEstimated [] 50])) = None /\
  live (after (earlyUnmount ++ [PosesEstimated [] 50])) = [] /\
  frameRequests (after (earlyUnmount ++ [PosesEstimated [] 50])) = [].
Proof. vm_compute. repeat split. Qed.

(** ** Animation frames *)

Lemma requestsHaveModel_step (a : App) (e : Event) (a' : App) :
  requestsHaveModel a -> step a e = Some a' -> requestsHaveModel a'.
Proof.
  intros H S.
  assert (W : forall b, incl (frameRequests b) (frameRequests a) ->
                        requestsHaveModel b).
  { intros b I id m Hin. apply (H id m). now apply I. }
  destruct e as [o| |m| |hasFrame now|hasFrame now|ps now| |]; simpl in S.
  - inversion S; subst. apply W, incl_refl.
  - destruct (tfReady (state a)); inversion S; subst. apply W, incl_refl.
  - destruct (tfReady (state a) && negb (detectorSettled a));
      inversion S; subst. apply W, incl_refl.
  - destruct (tfReady (state a) && negb (detectorSettled a));
      inversion S; subst. apply W, incl_refl.
  - destruct (mounted a && tfReady (state a) && negb (cameraStarted a));
      inversion S; subst. apply W. unfold handleCameraStream.
    destruct (loop_frames (model (state (with_cameraStarted true a)))
                hasFrame now (with_cameraStarted true a)) as (-> & _).
    apply incl_refl.
  - destruct (frameRequests a) as [|[id m] rest] eqn:F; [discriminate|].
    inversion S; subst. apply W.
    destruct (loop_frames m (hasFrame && mounted a) now
                (with_frames (nextFrame a) rest a))
      as (-> & _). simpl. apply incl_tl, incl_refl.
  - destruct (awaiting a) as [|w rest]; [discriminate|].
    inversion S; subst.
    unfold loop_resumed, tf_dispose, presentFrame. cbn -[remove].
    destruct (rafId a) as [[|p|p]|], (mounted a); cbn -[remove];
      try (apply W; apply incl_refl);
      intros id m Hin; simpl in Hin; apply in_app_or in Hin;
      (destruct Hin as [Hin|[Hin|[]]];
       [now apply (H id m) | inversion Hin; discriminate]).
  - destruct (awaiting a) as [|w rest]; [discriminate|].
    inversion S; subst. apply W, incl_refl.
  - destruct (mounted a); [|discriminate]. inversion S; subst.
    apply W. unfold cleanup. simpl.
    destruct (rafId a) as [id|]; [destruct (negb (id =? 0))|]; simpl;
      try apply incl_refl. apply incl_filter.
Qed.

Lemma estimates_pos (l : list Action) :
  (0 < estimates l)%nat -> exists m t, In (EstimateCalled m t) l.
Proof.
  unfold estimates. intro H.
  destruct (filter isEstimate l) as [|act r] eqn:F; [simpl in H; lia|].
  assert (I : In act (filter isEstimate l)) by (rewrite F; now left).
  apply filter_In in I. destruct I as [I B].
  destruct act; try discriminate. eauto.
Qed.

Lemma estimatedBefore_step (a : App) (e : Event) (a' : App) :
  estimatedBefore a -> step a e = Some a' -> estimatedBefore a'.
Proof.
  intros [(A & F)|P] S.
  - destruct a as [st rid mo ds cs nt lv nf fr aw lg]; simpl in *; subst.
    destruct e as [o| |m| |hasFrame now|hasFrame now|ps now| |]; simpl in S;
      try discriminate.
    + inversion S; subst. left. split; reflexivity.
    + destruct (tfReady st); inversion S; subst. left. split; reflexivity.
    + destruct (tfReady st && negb ds); inversion S; subst.
      left. split; reflexivity.
    + destruct (tfReady st && negb ds); inversion S; subst.
      left. split; reflexivity.
    + destruct (mo && tfReady st && negb cs); inversion S; subst.
      unfold handleCameraStream, loop, images_next, estimatedBefore. simpl.
      destruct hasFrame, (model st); simpl;
        try (left; split; reflexivity).
      right. rewrite estimates_snoc. simpl. lia.
    + destruct mo; [|discriminate]. inversion S; subst.
      unfold cleanup, estimatedBefore. simpl.
      destruct rid as [id|]; [destruct (negb (id =? 0))|]; simpl;
        left; split; reflexivity.
  - right. rewrite (step_emits a e a' S), estimates_app. lia.
Qed.

Lemma loop_invariants (evs : list Event) (a : App) :
  run initial evs = Some a ->
  handleTracked a /\ quietOnceUnmounted a /\ detectorsKnown a /\
  oneDetector a /\ requestsHaveModel a /\ estimatedBefore a.
Proof.
  apply (run_invariant
           (fun a => handleTracked a /\ quietOnceUnmounted a /\
                     detectorsKnown a /\ oneDetector a /\
                     requestsHaveModel a /\ estimatedBefore a)).
  - intros a0 e a1 (T & Q & K & O & H & B) S.
    split; [eapply handleTracked_step; eassumption|].
    split; [eapply quietOnceUnmounted_step; eassumption|].
    split; [eapply detectorsKnown_step; eassumption|].
    split; [eapply oneDetector_step; eassumption|].
    split; [eapply requestsHaveModel_step; eassumption|].
    eapply estimatedBefore_step; eassumption.
  - split; [apply handleTracked_initial|].
    split; [split; [intros _ []|discriminate]|].
    split; [apply detectorsKnown_initial|].
    split; [intros m []|].
    split; [intros id m []|].
    left. split; reflexivity.
Qed.

(** X3. An animation frame that finds a tensor always starts an estimation,
    on the model the loop was started with: the one request pending is a
    closure over the detector [model] holds, on which an estimation was
    made before; the call of [loop] acquires the tensor and calls
    [estimatePoses] on it with that detector. So "no model" can only be
    thrown by the first call of [loop], or for want of a tensor. *)
Theorem animation_frame_estimates (evs : list Event) (a a' : App) (now : Z) :
  run initial evs = Some a ->
  step a (AnimationFrame true now) = Some a' ->
  exists m,
    model (state a) = Some m /\
    (exists id, frameRequests a = [(id, Some m)]) /\
    (exists t, In (EstimateCalled m t) (log a)) /\
    log a' = log a ++ [LoopEntered; TensorAcquired (nextTensor a);
                       EstimateCalled m (nextTensor a)] /\
    awaiting a' = [mkAwaiting m (nextTensor a) now] /\
    live a' = [nextTensor a] /\
    frameRequests a' = [].
Proof.
  intros R S.
  destruct (loop_invariants evs a R)
    as (((_ & Hlen & Haw) & _) & (_ & Qu) & (Lic & _ & Kr & _) & O & Hr & B).
  simpl in S.
  destruct (frameRequests a) as [|[id m] rest] eqn:F; [discriminate|].
  simpl in Hlen.
  assert (R0 : rest = []) by (destruct rest; simpl in *; [auto|lia]).
  assert (L0 : live a = []) by (destruct (live a); simpl in *; [auto|lia]).
  assert (A0 : awaiting a = []).
  { destruct (awaiting a) as [|w r]; [auto|].
    destruct (Haw w r eq_refl). congruence. }
  assert (M : mounted a = true).
  { destruct (mounted a); [reflexivity|].
    destruct (Qu eq_refl) as (_ & F' & _). discriminate. }
  destruct m as [md|];
    [|exfalso; apply (Hr id None); [rewrite F; now left | reflexivity]].
  assert (Md : model (state a) = Some md).
  { apply O. apply (Kr id). now left. }
  subst rest. exists md. split; [exact Md|]. split; [now exists id|].
  split.
  { destruct B as [(_ & F')|P]; [congruence|].
    destruct (estimates_pos _ P) as (m' & t & I). exists t.
    assert (E : m' = md).
    { pose proof I as I'. apply in_split in I'.
      destruct I' as (pre & post & E).
      assert (D : In (DetectorReady m') (log a)).
      { rewrite E. apply in_or_app. left. eapply Lic. exact E. }
      apply O in D. destruct D as [D _]. congruence. }
    now subst m'. }
  inversion S; subst; clear S. rewrite M.
  unfold loop, images_next. simpl. rewrite A0, L0.
  repeat rewrite <- app_assoc. repeat split.
Qed.

(** X9. For a positive latency the reported frame rate is a whole number from
    0 to 1000: at least 1 up to one second, 0 beyond it, and never higher
    for a longer latency. *)
Theorem frame_rate_bounds (l1 l2 : Z) :
  0 < l1 <= l2 ->
  exists f1 f2,
    Math_floor_1000_over l1 = Int f1 /\
    Math_floor_1000_over l2 = Int f2 /\
    0 <= f2 <= f1 /\ f1 <= 1000 /\
    (l1 <= 1000 -> 1 <= f1) /\
    (1000 < l2 -> f2 = 0).
Proof.
  intros [H1 H2]. unfold Math_floor_1000_over.
  destruct (Z.eqb_spec l1 0); [lia|]. destruct (Z.eqb_spec l2 0); [lia|].
  exists (1000 / l1), (1000 / l2).
  split; [reflexivity|]. split; [reflexivity|].
  assert (A : 0 <= 1000 / l2) by (apply Z.div_pos; lia).
  assert (B : 1000 / l2 <= 1000 / l1) by (apply Z.div_le_compat_l; lia).
  assert (C : 1000 / l1 <= 1000).
  { apply Z.div_le_upper_bound; lia. }
  repeat split; try lia.
  - intro H. apply Z.div_le_lower_bound; lia.
  - intro H. apply Z.div_small. lia.
Qed.

Lemma frame_rate_bounds_witness :
  exists f1 f2,
    Math_floor_1000_over 33 = Int f1 /\
    Math_floor_1000_over 50 = Int f2 /\
    0 <= f2 <= f1 /\ f1 <= 1000 /\
    (33 <= 1000 -> 1 <= f1) /\
    (1000 < 50 -> f2 = 0).
Proof. apply (frame_rate_bounds 33 50). lia. Defined.

(** X10. When a pose is rendered, every circle of the overlay is the circle
    of a keypoint of the first pose that has a score above 0.3; there are
    exactly as many circles as the first pose has keypoints with a score
    above 0.3, so never more than keypoints; and when every keypoint is
    above the threshold the circles are those of all the keypoints, in
    their order. *)
Theorem overlay_from_first_pose (d : Device) (s : ReactState) (p : Pose.t)
    (rest : list Pose.t) :
  poses s = Some (p :: rest) ->
  exists circles,
    renderPose d s = Svg circles /\
    (forall c, In c circles ->
       exists k v, In k (Pose.keypoints p) /\
                   Keypoint.score k = Some v /\ (0.3 <? v)%float = true /\
                   c = toCircle d s k) /\
    List.length circles
    = List.length
        (filter (fun k => match Keypoint.score k with
                          | Some v => (0.3 <? v)%float
                          | None => false
                          end) (Pose.keypoints p)) /\
    (List.length circles <= List.length (Pose.keypoints p))%nat /\
    (forallb aboveThreshold (Pose.keypoints p) = true ->
     circles = map (toCircle d s) (Pose.keypoints p)).
Proof.
  intro Hp. unfold renderPose. rewrite Hp. eexists. split; [reflexivity|].
  split; [|split; [|split]].
  - intros c Hc. apply in_map_iff in Hc. destruct Hc as (k & E & Hk).
    apply filter_In in Hk. destruct Hk as [Hk Ha].
    unfold aboveThreshold, scoreOrZero, MIN_KEYPOINT_SCORE in Ha.
    destruct (Keypoint.score k) as [v|] eqn:Sc;
      [|vm_compute in Ha; discriminate].
    exists k, v. auto.
  - rewrite length_map. f_equal. apply filter_ext. intro k.
    unfold aboveThreshold, scoreOrZero, MIN_KEYPOINT_SCORE.
    destruct (Keypoint.score k); reflexivity.
  - rewrite length_map. apply filter_length_le.
  - intro H. f_equal. apply forallb_filter_id. exact H.
Qed.

Lemma overlay_from_first_pose_witness :
  exists circles,
    renderPose androidPhone
      (rendering (Some PORTRAIT_UP) front (Some [samplePose])) = Svg circles /\
    (forall c, In c circles ->
       exists k v, In k (Pose.keypoints samplePose) /\
                   Keypoint.score k = Some v /\ (0.3 <? v)%float = true /\
                   c = toCircle androidPhone
                         (rendering (Some PORTRAIT_UP) front
                            (Some [samplePose])) k) /\
    List.length circles
    = List.length
        (filter (fun k => match Keypoint.score k with
                          | Some v => (0.3 <? v)%float
                          | None => false
                          end) (Pose.keypoints samplePose)) /\
    (List.length circles <= List.length (Pose.keypoints samplePose))%nat /\
    (forallb aboveThreshold (Pose.keypoints samplePose) = true ->
     circles = map (toCircle androidPhone
                      (rendering (Some PORTRAIT_UP) front (Some [samplePose])))
                   (Pose.keypoints samplePose)).
Proof.
  apply (overlay_from_first_pose androidPhone
           (rendering (Some PORTRAIT_UP) front (Some [samplePose]))
           samplePose []).
  reflexivity.
Defined.

Lemma ltb_not_leb (u v : float) :
  (u <? v)%float = true -> (v <=? u)%float = false.
Proof.
  intro H. destruct (v <=? u)%float eqn:E; [|reflexivity].
  apply leb_not_ltb in E. congruence.
Qed.

(** X11. A keypoint is drawn only if it has a score, and the score is a number
    (not NaN), positive, and not less than or equal to the threshold; so a
    keypoint without a score is never drawn, nor one whose score is exactly
    0.3. *)
Theorem drawn_only_if_scored (k : Keypoint.t) :
  (aboveThreshold k = true ->
   exists v, Keypoint.score k = Some v /\
             v <> nan /\ (0 <? v)%float = true /\
             (v <=? 0.3)%float = false) /\
  (Keypoint.score k = None -> aboveThreshold k = false) /\
  (Keypoint.score k = Some 0.3%float -> aboveThreshold k = false) /\
  (Keypoint.score k = Some nan -> aboveThreshold k = false).
Proof.
  unfold aboveThreshold, scoreOrZero.
  split; [|repeat split; intros ->; reflexivity].
  destruct (Keypoint.score k) as [v|]; [|vm_compute; discriminate].
  intro H. exists v. split; [reflexivity|].
  split; [|split].
  - intros ->. vm_compute in H. discriminate.
  - rewrite ltb_spec in *. unfold SFltb in *.
    change (Prim2SF MIN_KEYPOINT_SCORE)
      with (S754_finite false 5404319552844595 (-54)) in H.
    change (Prim2SF 0) with (S754_zero false).
    destruct (Prim2SF v) as [sv|sv| |sv mv ev]; simpl in *;
      try discriminate; destruct sv; simpl in *;
      try discriminate; reflexivity.
  - apply ltb_not_leb. exact H.
Qed.

(** ** The properties above on sample executions *)

Lemma cancel_after_first_frame_witness :
  loopActivity
    (log (after (secondFrame ++ [Unmount; PosesEstimated [] 200])))
  = loopActivity (log (after secondFrame)) /\
  frameRequests (after (secondFrame ++ [Unmount; PosesEstimated [] 200])) = [] /\
  rafId (after (secondFrame ++ [Unmount; PosesEstimated [] 200])) = Some 0.
Proof.
  apply (cancel_after_first_frame secondFrame [PosesEstimated [] 200]
           (after secondFrame) (after (secondFrame ++ [Unmount]))).
  - vm_compute. reflexivity.
  - vm_compute. discriminate.
  - vm_compute. reflexivity.
  - vm_compute. reflexivity.
Defined.

Lemma mounted_frame_completes_witness :
  exists w,
    awaiting estimating = [w] /\
    log (after (firstFrame ++ [PosesEstimated [] 150]))
    = log estimating ++ [TensorDisposed (imageTensor w); FramePresented] /\
    frameRequests (after (firstFrame ++ [PosesEstimated [] 150]))
    = [(nextFrame estimating, Some (detector w))] /\
    rafId (after (firstFrame ++ [PosesEstimated [] 150]))
    = Some (nextFrame estimating) /\
    live (after (firstFrame ++ [PosesEstimated [] 150])) = [] /\
    awaiting (after (firstFrame ++ [PosesEstimated [] 150])) = [] /\
    poses (state (after (firstFrame ++ [PosesEstimated [] 150]))) = Some [].
Proof.
  apply (mounted_frame_completes firstFrame estimating
           (after (firstFrame ++ [PosesEstimated [] 150])) [] 150).
  - vm_compute. reflexivity.
  - vm_compute. reflexivity.
  - vm_compute. reflexivity.
Defined.

Lemma animation_frame_estimates_witness :
  exists m,
    model (state (after (firstFrame ++ [PosesEstimated [] 150]))) = Some m /\
    (exists id,
       frameRequests (after (firstFrame ++ [PosesEstimated [] 150]))
       = [(id, Some m)]) /\
    (exists t,
       In (EstimateCalled m t)
          (log (after (firstFrame ++ [PosesEstimated [] 150])))) /\
    log (after secondFrame)
    = log (after (firstFrame ++ [PosesEstimated [] 150]))
      ++ [LoopEntered;
          TensorAcquired
            (nextTensor (after (firstFrame ++ [PosesEstimated [] 150])));
          EstimateCalled m
            (nextTensor (after (firstFrame ++ [PosesEstimated [] 150])))] /\
    awaiting (after secondFrame)
    = [mkAwaiting m
         (nextTensor (after (firstFrame ++ [PosesEstimated [] 150]))) 166] /\
    live (after secondFrame)
    = [nextTensor (after (firstFrame ++ [PosesEstimated [] 150]))] /\
    frameRequests (after secondFrame) = [].
Proof.
  apply (animation_frame_estimates (firstFrame ++ [PosesEstimated [] 150])
           (after (firstFrame ++ [PosesEstimated [] 150]))
           (after secondFrame) 166).
  - vm_compute. reflexivity.
  - vm_compute. reflexivity.
Defined.

Lemma tensors_accounted_witness :
  (disposals 0 (log (after secondFrame))
   <= acquisitions 0 (log (after secondFrame)) <= 1)%nat /\
  (In 0%nat (live (after secondFrame)) <->
   acquisitions 0 (log (after secondFrame)) = 1%nat /\
   disposals 0 (log (after secondFrame)) = 0%nat).
Proof.
  apply (tensors_accounted secondFrame (after secondFrame) 0).
  vm_compute. reflexivity.
Defined.

Lemma estimate_on_held_tensor_witness :
  In (TensorAcquired 0) [DetectorReady 7; LoopEntered; TensorAcquired 0] /\
  ~ In (TensorDisposed 0) [DetectorReady 7; LoopEntered; TensorAcquired 0].
Proof.
  apply (estimate_on_held_tensor firstFrame estimating
           [DetectorReady 7; LoopEntered; TensorAcquired 0] [] 7 0).
  - vm_compute. reflexivity.
  - vm_compute. reflexivity.
Defined.

Lemma throw_ends_the_loop_witness :
  awaiting (after [TfReady; CameraReady true 0; DetectorCreated 7; Unmount])
  = [] /\
  frameRequests
    (after [TfReady; CameraReady true 0; DetectorCreated 7; Unmount]) = [] /\
  loopSteps
    (log (after [TfReady; CameraReady true 0; DetectorCreated 7; Unmount]))
  = loopSteps (log (after [TfReady; CameraReady true 0])) /\
  live (after [TfReady; CameraReady true 0; DetectorCreated 7; Unmount])
  = live (after [TfReady; CameraReady true 0]).
Proof.
  apply (throw_ends_the_loop [TfReady; CameraReady true 0]
           [DetectorCreated 7; Unmount]
           (after [TfReady; CameraReady true 0])
           (after [TfReady; CameraReady true 0; DetectorCreated 7; Unmount])
           "no model").
  - vm_compute. reflexivity.
  - vm_compute. right. right. left. reflexivity.
  - vm_compute. reflexivity.
Defined.

Lemma single_detector_witness :
  model (state (after secondFrame)) = Some 7%nat /\ 7%nat = 7%nat.
Proof.
  apply (single_detector secondFrame (after secondFrame) 7 7 0 1).
  - vm_compute. reflexivity.
  - vm_compute. do 3 right. left. reflexivity.
  - vm_compute. do 8 right. left. reflexivity.
Defined.

Lemma failed_detector_never_estimates_witness :
  model (state (after [TfReady; DetectorFailed; CameraReady true 0])) = None /\
  estimates (log (after [TfReady; DetectorFailed; CameraReady true 0]))
  = 0%nat /\
  awaiting (after [TfReady; DetectorFailed; CameraReady true 0]) = [].
Proof.
  apply (failed_detector_never_estimates [TfReady] [CameraReady true 0]
           (after [TfReady; DetectorFailed; CameraReady true 0])).
  vm_compute. reflexivity.
Defined.
